(** * concat-writable-streams: the ConcatSink state machine

    A shallow embedding of [src/index.ts] (class [ConcatSink]) and of the
    two helper streams of its test file ([LimitedWritableStream],
    [InMemoryWritableStream]), with the properties of the sink proved
    over it.

    Layout:
    - [Sink]: the sink itself, over arbitrary collaborators (any cursor,
      any writable stream, any writer).  Every call the sink makes on a
      collaborator is recorded in a trace, so that call order and call
      counts can be stated.
    - [Platform]: the sequential fragment of the Streams Standard the
      sink runs on (stream states, locks, writers), the two helper
      streams, array iterators and the generator of the test file.
    - the theorems. *)

From stdpp Require Import list strings pretty.

Set Default Proof Using "Type".

(** ** Values and completions *)

(** The JavaScript values that are thrown or passed as a reason. *)
Inductive jsval : Type :=
| JSUndefined
| JSTypeError (msg : string)
| JSRangeError (msg : string)
| JSValue (n : nat).

Global Instance jsval_eq_dec : EqDecision jsval.
Proof. solve_decision. Defined.

(** An awaited call either returns or throws. *)
Inductive completion (A : Type) : Type :=
| Normal (a : A)
| Throw (e : jsval).
Global Arguments Normal {A} a.
Global Arguments Throw {A} e.

Definition is_normal {A} (c : completion A) : bool :=
  match c with Normal _ => true | Throw _ => false end.

(** [new RangeError("Writable stream iterator has ended")] *)
Definition SupplyExhausted : jsval :=
  JSRangeError "Writable stream iterator has ended".

(** [new TypeError("Writer is undefined")], [new TypeError("Iterator is undefined")] *)
Definition WriterUndefined : jsval := JSTypeError "Writer is undefined".
Definition IteratorUndefined : jsval := JSTypeError "Iterator is undefined".

(** ** The sink over arbitrary collaborators *)
Module Sink.
Section Sink.

(** [W]: the state of everything outside the sink (streams, cursor,
    counters).  [T]: the chunk type. *)
Context {W T : Type}.

(** The collaborators are objects: records of methods acting on [W]. *)
Record WritableStreamDefaultWriter : Type := {
  writer_id : nat;
  ready : W → completion unit * W;
  write : T → W → completion unit * W;
  close : W → completion unit * W;
  abort : jsval → W → completion unit * W;
  releaseLock : W → W;
}.

Record WritableStream : Type := {
  stream_id : nat;
  getWriter : W → completion WritableStreamDefaultWriter * W;
}.

(** [{ done, value }] *)
Inductive IteratorResult : Type :=
| IterDone
| IterValue (value : WritableStream).

(** [return] and [throw] are optional methods ([?.]). *)
Record Iterator : Type := {
  iter_next : jsval → W → completion IteratorResult * W;
  iter_return : option (jsval → W → completion unit * W);
  iter_throw : option (jsval → W → completion unit * W);
}.

(** The four shapes of [#gen]: an object may carry [Symbol.iterator],
    [Symbol.asyncIterator], or be callable. *)
Record Supply : Type := {
  symbol_iterator : option (W → completion Iterator * W);
  symbol_asyncIterator : option (W → completion Iterator * W);
  call : W → completion Iterator * W;
}.

Record ConcatSinkOptions : Type := {
  preventAbort : option bool;
  preventClose : option bool;
}.

(** [this.#options?.preventClose], [this.#options?.preventAbort] as conditions *)
Definition truthy (b : option bool) : bool := default false b.

Record ConcatSink : Type := {
  gen : Supply;
  options : option ConcatSinkOptions;
  iter : option Iterator;
  writer : option WritableStreamDefaultWriter;
}.

(** [new ConcatSink(gen, options)] *)
Definition constructor (g : Supply) (o : option ConcatSinkOptions) : ConcatSink :=
  {| gen := g; options := o; iter := None; writer := None |}.

(** Calls made on collaborators, in the order the sink makes them. *)
Inductive event : Type :=
| EvIterator
| EvIterNext (reason : jsval)
| EvIterReturn
| EvIterThrow (reason : jsval)
| EvGetWriter (stream : nat)
| EvReady (w : nat)
| EvWrite (w : nat) (chunk : T)
| EvClose (w : nat)
| EvAbort (w : nat) (reason : jsval)
| EvReleaseLock (w : nat).

Record state : Type := {
  this : ConcatSink;
  world : W;
  trace : list event;
}.

(** Methods run in a state-and-exception monad: what was mutated before
    a throw stays mutated. *)
Definition M (A : Type) : Type := state → completion A * state.

Definition ret {A} (a : A) : M A := λ st, (Normal a, st).
Definition throw {A} (e : jsval) : M A := λ st, (Throw e, st).
Definition bind {A B} (m : M A) (k : A → M B) : M B :=
  λ st, match m st with
        | (Normal a, st') => k a st'
        | (Throw e, st') => (Throw e, st')
        end.
(** [try { m } catch (err) { h err }] *)
Definition try_catch {A} (m : M A) (h : jsval → M A) : M A :=
  λ st, match m st with
        | (Normal a, st') => (Normal a, st')
        | (Throw e, st') => h e st'
        end.

Local Instance M_ret : MRet M := @ret.
Local Instance M_bind : MBind M := λ A B k m, bind m k.

(** Reading and assigning the private fields. *)
Definition get_iter : M (option Iterator) := λ st, (Normal (iter (this st)), st).
Definition get_writer : M (option WritableStreamDefaultWriter) :=
  λ st, (Normal (writer (this st)), st).
Definition get_options : M (option ConcatSinkOptions) :=
  λ st, (Normal (options (this st)), st).
Definition get_gen : M Supply := λ st, (Normal (gen (this st)), st).
Definition set_iter (i : Iterator) : M unit :=
  λ st, (Normal (),
         {| this := {| gen := gen (this st); options := options (this st);
                       iter := Some i; writer := writer (this st) |};
            world := world st; trace := trace st |}).
Definition set_writer (w : WritableStreamDefaultWriter) : M unit :=
  λ st, (Normal (),
         {| this := {| gen := gen (this st); options := options (this st);
                       iter := iter (this st); writer := Some w |};
            world := world st; trace := trace st |}).

(** An awaited call on a collaborator, recorded in the trace. *)
Definition invoke {A} (ev : event) (f : W → completion A * W) : M A :=
  λ st, let '(r, w') := f (world st) in
        (r, {| this := this st; world := w'; trace := trace st ++ [ev] |}).

(** [w.releaseLock()] *)
Definition release (w : WritableStreamDefaultWriter) : M unit :=
  invoke (EvReleaseLock (writer_id w)) (λ x, (Normal (), releaseLock w x)).

(** [o?.m(...)] as a statement *)
Definition opt_call {A} (o : option A) (f : A → M unit) : M unit :=
  match o with Some a => f a | None => ret () end.

(** [await w.ready; await w.write(chunk);] *)
Definition submit (w : WritableStreamDefaultWriter) (chunk : T) : M unit :=
  invoke (EvReady (writer_id w)) (ready w);;
  invoke (EvWrite (writer_id w) chunk) (write w chunk).

(** [private async next(reason?)] *)
Definition next (reason : jsval) : M WritableStreamDefaultWriter :=
  i ← get_iter;
  match i with
  | None => throw IteratorUndefined
  | Some it =>
      result ← invoke (EvIterNext reason) (iter_next it reason);
      match result with
      | IterDone => throw SupplyExhausted
      | IterValue value =>
          old ← get_writer;
          opt_call old release;;
          w ← invoke (EvGetWriter (stream_id value)) (getWriter value);
          set_writer w;;
          ret w
      end
  end.

(** [async start()] *)
Definition start : M unit :=
  g ← get_gen;
  i ← invoke EvIterator
        (match symbol_iterator g with
         | Some f => f
         | None => match symbol_asyncIterator g with
                   | Some f => f
                   | None => call g
                   end
         end);
  set_iter i;;
  _ ← next JSUndefined;
  ret ().

(** [async write(chunk)] *)
Definition sink_write (chunk : T) : M unit :=
  cur ← get_writer;
  match cur with
  | None => throw WriterUndefined
  | Some w =>
      try_catch (submit w chunk)
        (λ err, nextWriter ← next err; submit nextWriter chunk)
  end.

(** [async close()] *)
Definition sink_close : M unit :=
  i ← get_iter;
  opt_call i (λ it, opt_call (iter_return it)
                      (λ f, invoke EvIterReturn (f JSUndefined)));;
  o ← get_options;
  (if negb (truthy (o ≫= preventClose))
   then w ← get_writer; opt_call w (λ w, invoke (EvClose (writer_id w)) (close w))
   else ret ());;
  w ← get_writer;
  opt_call w release.

(** [async abort(reason?)] *)
Definition sink_abort (reason : jsval) : M unit :=
  try_catch
    (i ← get_iter;
     opt_call i (λ it, opt_call (iter_throw it)
                         (λ f, invoke (EvIterThrow reason) (f reason))))
    (λ _, ret ());;
  o ← get_options;
  (if negb (truthy (o ≫= preventAbort))
   then w ← get_writer; opt_call w (λ w, invoke (EvAbort (writer_id w) reason) (abort w reason))
   else ret ());;
  w ← get_writer;
  opt_call w release.

(** The owning pipe ([readable.pipeTo(concatWritableStreams(...))]):
    [start] once, the chunks written one after the other, then [close].
    A rejected [start] or [write] errors the piped-to stream, which
    then calls neither [write] nor [close] nor [abort] on its sink. *)
Fixpoint write_all (chunks : list T) : M unit :=
  match chunks with
  | [] => ret ()
  | c :: rest => sink_write c;; write_all rest
  end.

Definition pipeTo (chunks : list T) : M unit :=
  start;; write_all chunks;; sink_close.

(** What a method call added to the trace. *)
Definition new_events (before after : state) : list event :=
  drop (length (trace before)) (trace after).

(** Observations on a trace. *)
Definition is_iter_next (ev : event) : bool :=
  match ev with EvIterNext _ => true | _ => false end.
Definition is_release (ev : event) : bool :=
  match ev with EvReleaseLock _ => true | _ => false end.
Definition is_finalize (ev : event) : bool :=
  match ev with EvClose _ | EvAbort _ _ => true | _ => false end.

(** The number of times a method pulled from the cursor. *)
Definition advances (tr : list (event)) : nat :=
  length (filter (λ ev, is_iter_next ev = true) tr).

(** Some release of a handle is followed, later in the trace, by a pull
    from the cursor. *)
Fixpoint released_then_pulled (tr : list (event)) : bool :=
  match tr with
  | [] => false
  | EvReleaseLock _ :: rest => existsb is_iter_next rest
  | _ :: rest => released_then_pulled rest
  end.

End Sink.
Global Arguments WritableStreamDefaultWriter : clear implicits.
Global Arguments WritableStream : clear implicits.
Global Arguments IteratorResult : clear implicits.
Global Arguments Iterator : clear implicits.
Global Arguments Supply : clear implicits.
Global Arguments ConcatSink : clear implicits.
Global Arguments event : clear implicits.
Global Arguments state : clear implicits.
Global Arguments M : clear implicits.
End Sink.

(** ** The platform the sink runs on *)

(** The sequential fragment of the Streams Standard that the sink and
    the helper streams of the test file use: a stream is writable,
    closed or errored, it is locked while a writer is attached to it,
    and a writer that was released rejects everything but a further
    release.  Every call is awaited before the next one is made, so no
    write is ever queued and [ready] only rejects on an errored stream.
    The messages of the platform's own TypeErrors are not fixed by the
    standard. *)
Module Platform.
Import Sink.

Definition ReleasedWriter : jsval := JSTypeError "The writer has been released".
Definition LockedStream : jsval := JSTypeError "The stream is locked to a writer".
Definition ClosedStream : jsval := JSTypeError "The stream is closing or closed".
Definition NotWritable : jsval := JSTypeError "The stream is closed or errored".

Inductive stream_state : Type :=
| Writable
| Closed
| Errored (storedError : jsval).

Section Platform.
Context {T : Type}.

(** The two stream classes of the test file.  A [LimitedWritableStream]
    owns the writer it took on [writable] in its [start]; the writer is
    kept as its released flag, and the wrapped stream is held by
    value. *)
Inductive stream : Type :=
| InMemoryWritableStream (st : stream_state) (locked : bool) (buffer : list T)
| LimitedWritableStream (st : stream_state) (locked : bool)
    (size read : nat) (options : option ConcatSinkOptions)
    (writer_released : bool) (writable : stream).

Definition stream_st (s : stream) : stream_state :=
  match s with
  | InMemoryWritableStream st _ _ => st
  | LimitedWritableStream st _ _ _ _ _ _ => st
  end.

(** [s.locked] *)
Definition locked (s : stream) : bool :=
  match s with
  | InMemoryWritableStream _ l _ => l
  | LimitedWritableStream _ l _ _ _ _ _ => l
  end.

Definition set_st (st : stream_state) (s : stream) : stream :=
  match s with
  | InMemoryWritableStream _ l b => InMemoryWritableStream st l b
  | LimitedWritableStream _ l n r o wr i => LimitedWritableStream st l n r o wr i
  end.

Definition set_locked (l : bool) (s : stream) : stream :=
  match s with
  | InMemoryWritableStream st _ b => InMemoryWritableStream st l b
  | LimitedWritableStream st _ n r o wr i => LimitedWritableStream st l n r o wr i
  end.

(** [get data()] of the in-memory stream *)
Definition data (s : stream) : list T :=
  match s with
  | InMemoryWritableStream _ _ b => b
  | LimitedWritableStream _ _ _ _ _ _ _ => []
  end.

(** The stream a [LimitedWritableStream] was built on. *)
Definition writable_of (s : stream) : option stream :=
  match s with
  | InMemoryWritableStream _ _ _ => None
  | LimitedWritableStream _ _ _ _ _ _ i => Some i
  end.

(** What reached the in-memory stream at the bottom. *)
Fixpoint received (s : stream) : list T :=
  match s with
  | InMemoryWritableStream _ _ b => b
  | LimitedWritableStream _ _ _ _ _ _ i => received i
  end.

(** [writer.ready] of a writer attached to [s] *)
Definition stream_ready (s : stream) : completion unit :=
  match stream_st s with
  | Errored e => Throw e
  | _ => Normal ()
  end.

(** [`Exceeded chunk limit of '${size}'`] *)
Definition ExceededChunkLimit (size : nat) : jsval :=
  JSRangeError ("Exceeded chunk limit of '" +:+ pretty size +:+ "'").

(** A method of the writer a [LimitedWritableStream] holds on its
    wrapped stream: rejected once that writer was released. *)
Definition via_writer (released : bool) (f : stream → completion unit * stream)
    (i : stream) : completion unit * stream :=
  if released then (Throw ReleasedWriter, i) else f i.

(** [writer.releaseLock()] of that same writer *)
Definition inner_release (released : bool) (i : stream) : stream :=
  if released then i else set_locked false i.

(** [writer.close()], [writer.abort(reason)] and [writer.write(chunk)]
    of a writer attached to [s]: the state check of the platform, then
    the underlying sink's own method; a method that throws errors the
    stream. *)
Fixpoint stream_close (s : stream) : completion unit * stream :=
  match s with
  | InMemoryWritableStream st l buffer =>
      match st with
      | Writable => (Normal (), InMemoryWritableStream Closed l buffer)
      | _ => (Throw NotWritable, s)
      end
  | LimitedWritableStream st l size read o wr i =>
      match st with
      | Writable =>
          match (if negb (truthy (o ≫= preventClose))
                 then via_writer wr stream_close i else (Normal (), i)) with
          | (Throw e, i') =>
              (Throw e, LimitedWritableStream (Errored e) l size read o wr i')
          | (Normal _, i') =>
              (Normal (),
               LimitedWritableStream Closed l size read o true (inner_release wr i'))
          end
      | _ => (Throw NotWritable, s)
      end
  end.

Fixpoint stream_abort (reason : jsval) (s : stream) : completion unit * stream :=
  match s with
  | InMemoryWritableStream st l buffer =>
      match st with
      | Writable => (Normal (), InMemoryWritableStream (Errored reason) l buffer)
      | _ => (Normal (), s)
      end
  | LimitedWritableStream st l size read o wr i =>
      match st with
      | Writable =>
          match (if negb (truthy (o ≫= preventAbort))
                 then via_writer wr (stream_abort reason) i else (Normal (), i)) with
          | (Throw e, i') =>
              (Throw e, LimitedWritableStream (Errored reason) l size read o wr i')
          | (Normal _, i') =>
              (Normal (),
               LimitedWritableStream (Errored reason) l size read o true
                 (inner_release wr i'))
          end
      | _ => (Normal (), s)
      end
  end.

Fixpoint stream_write (chunk : T) (s : stream) : completion unit * stream :=
  match s with
  | InMemoryWritableStream st l buffer =>
      match st with
      | Errored e => (Throw e, s)
      | Closed => (Throw ClosedStream, s)
      | Writable =>
          (* this.#buffer.push(chunk) *)
          (Normal (), InMemoryWritableStream st l (buffer ++ [chunk]))
      end
  | LimitedWritableStream st l size read o wr i =>
      match st with
      | Errored e => (Throw e, s)
      | Closed => (Throw ClosedStream, s)
      | Writable =>
          if size <? read + 1 then
            (* the close is not awaited: its outcome is dropped *)
            let i1 := if negb (truthy (o ≫= preventClose))
                      then (via_writer wr stream_close i).2 else i in
            let i2 := inner_release wr i1 in
            let e := ExceededChunkLimit size in
            (Throw e, LimitedWritableStream (Errored e) l size read o true i2)
          else
            let read' := read + 1 in
            match (if wr then Throw ReleasedWriter else stream_ready i) with
            | Throw e =>
                (Throw e, LimitedWritableStream (Errored e) l size read' o wr i)
            | Normal _ =>
                match via_writer wr (stream_write chunk) i with
                | (Throw e, i') =>
                    (Throw e, LimitedWritableStream (Errored e) l size read' o wr i')
                | (Normal _, i') =>
                    (Normal (), LimitedWritableStream st l size read' o wr i')
                end
            end
      end
  end.

(** [new InMemoryWritableStream()] *)
Definition new_InMemoryWritableStream : stream :=
  InMemoryWritableStream Writable false [].

(** [new LimitedWritableStream(size, writable, options)]: [start] runs in
    the constructor and takes the writer; a locked [writable] makes the
    constructor throw. *)
Definition new_LimitedWritableStream (size : nat) (writable : stream)
    (o : option ConcatSinkOptions) : completion stream :=
  if locked writable then Throw LockedStream
  else Normal (LimitedWritableStream Writable false size 0 o false
                 (set_locked true writable)).

(** The cursor of the generator function of the test file,
    [function* () { for (let i = 0; i < n; i++) { try { yield new
    LimitedWritableStream(size, new InMemoryWritableStream()); } finally
    { cnt++; } } }]: not yet started, suspended at the [yield] of round
    [i], or completed. *)
Inductive generator_state : Type :=
| SuspendedStart
| SuspendedYield (i : nat)
| Completed.

(** Everything outside the sink. *)
Record World : Type := {
  heap : list stream;            (* the consumer streams, by identity *)
  writers : list (option nat);   (* the writers handed out: the stream each is attached to *)
  array_index : nat;             (* next index of the array iterator *)
  generator : generator_state;
  cnt : nat;                     (* the counter bumped in the generator's finally block *)
}.

Definition set_heap (h : list stream) (w : World) : World :=
  {| heap := h; writers := writers w; array_index := array_index w;
     generator := generator w; cnt := cnt w |}.
Definition set_writers (ws : list (option nat)) (w : World) : World :=
  {| heap := heap w; writers := ws; array_index := array_index w;
     generator := generator w; cnt := cnt w |}.
Definition set_array_index (n : nat) (w : World) : World :=
  {| heap := heap w; writers := writers w; array_index := n;
     generator := generator w; cnt := cnt w |}.
Definition set_generator (g : generator_state) (w : World) : World :=
  {| heap := heap w; writers := writers w; array_index := array_index w;
     generator := g; cnt := cnt w |}.
Definition set_cnt (n : nat) (w : World) : World :=
  {| heap := heap w; writers := writers w; array_index := array_index w;
     generator := generator w; cnt := n |}.

(** The stream writer [k] is attached to, if it was not released. *)
Definition attached (k : nat) (w : World) : option nat :=
  mjoin (writers w !! k).

(** A method of writer [k]. *)
Definition on_stream (k : nat) (f : stream → completion unit * stream)
    (w : World) : completion unit * World :=
  match attached k w with
  | Some s =>
      match heap w !! s with
      | Some strm => let '(r, strm') := f strm in (r, set_heap (<[s := strm']> (heap w)) w)
      | None => (Throw ReleasedWriter, w)
      end
  | None => (Throw ReleasedWriter, w)
  end.

(** [writer.releaseLock()]: nothing happens on a released writer. *)
Definition release_lock (k : nat) (w : World) : World :=
  match attached k w with
  | Some s =>
      set_writers (<[k := None]> (writers w))
        (set_heap (alter (set_locked false) s (heap w)) w)
  | None => w
  end.

Definition writer_object (k : nat) : WritableStreamDefaultWriter World T :=
  {| writer_id := k;
     ready := on_stream k (λ s, (stream_ready s, s));
     write := λ chunk, on_stream k (stream_write chunk);
     close := on_stream k stream_close;
     abort := λ reason, on_stream k (stream_abort reason);
     releaseLock := release_lock k |}.

(** [stream.getWriter()]: throws on a locked stream. *)
Definition get_writer_of (s : nat) (w : World)
    : completion (WritableStreamDefaultWriter World T) * World :=
  match heap w !! s with
  | Some strm =>
      if locked strm then (Throw LockedStream, w)
      else (Normal (writer_object (length (writers w))),
            set_writers (writers w ++ [Some s])
              (set_heap (<[s := set_locked true strm]> (heap w)) w))
  | None => (Throw LockedStream, w)
  end.

Definition stream_object (s : nat) : WritableStream World T :=
  {| stream_id := s; getWriter := get_writer_of s |}.

(** The iterator of an array of streams: [next] only. *)
Definition array_iterator (arr : list nat) : Iterator World T :=
  {| iter_next := λ _ w,
       match arr !! array_index w with
       | Some s => (Normal (IterValue (stream_object s)),
                    set_array_index (array_index w + 1) w)
       | None => (Normal IterDone, w)
       end;
     iter_return := None;
     iter_throw := None |}.

(** [concatWritableStreams([s0, s1, ...])] *)
Definition array_supply (arr : list nat) : Supply World T :=
  {| symbol_iterator := Some (λ w, (Normal (array_iterator arr), set_array_index 0 w));
     symbol_asyncIterator := None;
     call := λ w, (Throw (JSTypeError "this.#gen is not a function"), w) |}.

(** The generator body from round [i] on, up to its next [yield]. *)
Definition generator_loop (n size i : nat) (w : World)
    : completion (IteratorResult World T) * World :=
  if i <? n then
    match new_LimitedWritableStream size new_InMemoryWritableStream None with
    | Normal s =>
        (Normal (IterValue (stream_object (length (heap w)))),
         set_generator (SuspendedYield i) (set_heap (heap w ++ [s]) w))
    | Throw e =>
        (Throw e, set_generator Completed (set_cnt (cnt w + 1) w))
    end
  else (Normal IterDone, set_generator Completed w).

Definition generator_object (n size : nat) : Iterator World T :=
  {| iter_next := λ _ w,
       match generator w with
       | SuspendedStart => generator_loop n size 0 w
       | SuspendedYield i => generator_loop n size (i + 1) (set_cnt (cnt w + 1) w)
       | Completed => (Normal IterDone, w)
       end;
     iter_return := Some (λ _ w,
       match generator w with
       | SuspendedStart => (Normal (), set_generator Completed w)
       | SuspendedYield i => (Normal (), set_generator Completed (set_cnt (cnt w + 1) w))
       | Completed => (Normal (), w)
       end);
     iter_throw := Some (λ e w,
       match generator w with
       | SuspendedStart => (Throw e, set_generator Completed w)
       | SuspendedYield i => (Throw e, set_generator Completed (set_cnt (cnt w + 1) w))
       | Completed => (Throw e, w)
       end) |}.

(** [concatWritableStreams(function* () { ... })] *)
Definition generator_supply (n size : nat) : Supply World T :=
  {| symbol_iterator := None;
     symbol_asyncIterator := None;
     call := λ w, (Normal (generator_object n size), set_generator SuspendedStart w) |}.

(** A consumer as the tests build it:
    [new LimitedWritableStream(size, new InMemoryWritableStream())]. *)
Definition consumer (size : nat) : stream :=
  LimitedWritableStream Writable false size 0 None false
    (InMemoryWritableStream Writable true []).

(** The world in which the streams of sizes [caps] have been built and
    nothing else has happened. *)
Definition world_of (caps : list nat) : World :=
  {| heap := consumer <$> caps; writers := []; array_index := 0;
     generator := SuspendedStart; cnt := 0 |}.

Definition initial (g : Supply World T) (o : option ConcatSinkOptions)
    (w : World) : state World T :=
  {| this := constructor g o; world := w; trace := [] |}.

(** [toReadableStream(chunks).pipeTo(concatWritableStreams([...caps]))] *)
Definition pipe_array (caps : list nat) (chunks : list T)
    : completion unit * state World T :=
  pipeTo chunks (initial (array_supply (seq 0 (length caps))) None (world_of caps)).

(** [toReadableStream(chunks).pipeTo(concatWritableStreams(function* ...))] *)
Definition pipe_generator (n size : nat) (chunks : list T)
    : completion unit * state World T :=
  pipeTo chunks (initial (generator_supply n size) None (world_of [])).

End Platform.
Global Arguments stream : clear implicits.
Global Arguments World : clear implicits.
End Platform.

(** ** What a pipe is expected to do, and the states it goes through *)
Module Model.
Import Sink Platform.
Section Model.
Context {T : Type}.

(** The chunks cut into consecutive runs, the i-th as long as the i-th
    capacity allows. *)
Fixpoint distribute (caps : list nat) (chunks : list T) : list (list T) :=
  match caps with
  | [] => []
  | c :: cs => take c chunks :: distribute cs (drop c chunks)
  end.

(** The consumer the sink is writing to, after it accepted [buf]. *)
Definition current (cap : nat) (buf : list T) : stream T :=
  LimitedWritableStream Writable true cap (length buf) None false
    (InMemoryWritableStream Writable true buf).

(** A consumer that rejected a chunk beyond its capacity. *)
Definition full (l : bool) (cap : nat) (buf : list T) : stream T :=
  LimitedWritableStream (Errored (ExceededChunkLimit cap)) l cap (length buf) None true
    (InMemoryWritableStream Closed false buf).

(** The last consumer, after the sink closed it. *)
Definition closed (l : bool) (cap : nat) (buf : list T) : stream T :=
  LimitedWritableStream Closed l cap (length buf) None true
    (InMemoryWritableStream Closed false buf).

Definition left_behind (d : nat * list T) : stream T := full false d.1 d.2.

(** The two supplies of the test file. *)
Inductive supply_kind : Type := FromArray | FromGenerator.

Definition supply_of (k : supply_kind) (n size : nat) : Supply (World T) T :=
  match k with
  | FromArray => array_supply (seq 0 n)
  | FromGenerator => generator_supply n size
  end.

Definition iterator_of (k : supply_kind) (n size : nat) : Iterator (World T) T :=
  match k with
  | FromArray => array_iterator (seq 0 n)
  | FromGenerator => generator_object n size
  end.

(** The world while the sink works on the consumer after [done] (each
    with its capacity and what it received); [cur] is that consumer,
    [held] whether the sink's handle on it is still attached, [rest]
    the capacities of the consumers not yet pulled.  An array supply
    has built them all beforehand; the generator builds each one when
    it is pulled and has run its cleanup once per consumer left. *)
Definition world_at (k : supply_kind) (done : list (nat * list T))
    (cur : stream T) (held : bool) (rest : list nat) : World T :=
  {| heap := (left_behind <$> done) ++ cur ::
               match k with FromArray => consumer <$> rest | FromGenerator => [] end;
     writers := replicate (length done) None
                ++ [if held then Some (length done) else None];
     array_index := match k with FromArray => S (length done) | FromGenerator => 0 end;
     generator := match k with
                  | FromArray => SuspendedStart
                  | FromGenerator => SuspendedYield (length done)
                  end;
     cnt := match k with FromArray => 0 | FromGenerator => length done end |}.

Definition sink_at (k : supply_kind) (n size j : nat) : ConcatSink (World T) T :=
  {| gen := supply_of k n size; options := None;
     iter := Some (iterator_of k n size);
     writer := Some (writer_object j) |}.

Definition state_at (k : supply_kind) (n size : nat) (done : list (nat * list T))
    (cur : stream T) (held : bool) (rest : list nat) (tr : list (event T))
    : state (World T) T :=
  {| this := sink_at k n size (length done);
     world := world_at k done cur held rest;
     trace := tr |}.

(** The world once the pipe has closed the sink. *)
Definition world_closed (k : supply_kind) (done : list (nat * list T))
    (cap : nat) (buf : list T) (rest : list nat) : World T :=
  let w := world_at k done (closed false cap buf) false rest in
  match k with
  | FromArray => w
  | FromGenerator => set_generator Completed (set_cnt (S (length done)) w)
  end.

(** The supply offers [n] consumers in all; a generator builds them all
    of capacity [size]. *)
Definition consistent (k : supply_kind) (n size : nat)
    (done : list (nat * list T)) (cap : nat) (rest : list nat) : Prop :=
  n = length done + 1 + length rest
  ∧ match k with
    | FromArray => True
    | FromGenerator => cap = size ∧ rest = replicate (length rest) size
    end.

(** The cursors of the test file: over an array, or the generator. *)
Definition test_cursor (it : Iterator (World T) T) : Prop :=
  (∃ arr, it = array_iterator arr) ∨ (∃ n size, it = generator_object n size).

(** Each consumer left behind received as many chunks as it can hold. *)
Definition filled (d : nat * list T) : Prop := length d.2 = d.1.

(** The number of handles attached to a stream. *)
Definition live_handles (w : World T) : nat :=
  length (filter is_Some (writers w)).

(** The supplies of the test file. *)
Definition test_supply (g : Supply (World T) T) : Prop :=
  (∃ arr, g = array_supply arr) ∨ (∃ n size, g = generator_supply n size).

(** Every locked consumer is locked by a handle that is still attached. *)
Definition locks_ok (w : World T) : Prop :=
  ∀ s strm, heap w !! s = Some strm → locked strm = true →
    ∃ j, writers w !! j = Some (Some s).

(** Only the handle taken last, number [cur], may still be attached. *)
Definition world_inv (cur : option nat) (w : World T) : Prop :=
  match cur with
  | None => writers w = []
  | Some j => ∃ x, writers w = replicate j None ++ [x]
  end ∧ locks_ok w.

(** The sink holds the handle taken last, and pulls from a cursor of
    the test file. *)
Definition sink_inv (st : state (World T) T) : Prop :=
  (∃ cur, writer (this st) = writer_object <$> cur ∧ world_inv cur (world st))
  ∧ match iter (this st) with
    | None => True
    | Some it => test_cursor it
    end.

(** What the cursor may do to the world: leave the handles alone, and
    at most add a fresh, unlocked stream. *)
Definition cursor_step (w w' : World T) : Prop :=
  writers w' = writers w
  ∧ (heap w' = heap w ∨ ∃ strm, heap w' = heap w ++ [strm] ∧ locked strm = false).

(** No handle is attached. *)
Definition all_released (w : World T) : Prop :=
  Forall (λ x, x = None) (writers w).

(** The operations the owning stream may call after [start]. *)
Inductive operation : Type :=
| OpWrite (chunk : T)
| OpClose
| OpAbort (reason : jsval).

End Model.

Section Calls.
Context {W T : Type}.

Definition perform (op : operation (T:=T)) : M W T unit :=
  match op with
  | OpWrite chunk => sink_write chunk
  | OpClose => sink_close
  | OpAbort reason => sink_abort reason
  end.

(** The state after a series of calls, whether they returned or threw. *)
Definition after (ops : list (operation (T:=T))) (st : state W T) : state W T :=
  foldl (λ s op, (perform op s).2) st ops.

(** The handles in the sink's hands after a call on a collaborator, [h]
    being in its hands before: a [getWriter()] call hands one over
    (counted also when the call throws), a [releaseLock()] call gives
    one back. *)
Definition holds (h : nat) (ev : event T) : nat :=
  match ev with
  | EvGetWriter _ => S h
  | EvReleaseLock _ => pred h
  | _ => h
  end.

(** The most handles in the sink's hands at any point of a trace, [h]
    being in its hands at the start. *)
Fixpoint handles_peak (h : nat) (tr : list (event T)) : nat :=
  match tr with
  | [] => h
  | ev :: rest => h `max` handles_peak (holds h ev) rest
  end.

End Calls.
End Model.

(** ** Sinks at work, for the examples *)
Module Examples.
Import Sink Platform.

(** A sink over an array of consumers of the given capacities, started. *)
Definition started (caps : list nat) : state (World nat) nat :=
  (start (initial (array_supply (seq 0 (length caps))) None (world_of caps))).2.

(** Two consumers of capacity one, the first of which holds its chunk. *)
Definition first_full : state (World nat) nat :=
  (sink_write 10 (started [1; 1])).2.

(** Consumers of capacity zero, zero and one, after a write that both
    the first and the second rejected: the handle held is on the second
    consumer, which is errored. *)
Definition second_errored : state (World nat) nat :=
  (sink_write 10 (started [0; 0; 1])).2.

(** A sink over the generator of the test file, started. *)
Definition generated (n size : nat) (o : option ConcatSinkOptions)
    : state (World nat) nat :=
  (start (initial (generator_supply n size) o (world_of []))).2.

End Examples.

(** ** The rest of the sink's life, and the helper streams on their own *)
Module Usage.
Import Sink Platform.

Section Generic.
Context {W T : Type}.

(** The cursor [start()] obtains from [#gen]: through [Symbol.iterator]
    if the supply has it, else through [Symbol.asyncIterator] if it has
    that, else by calling it. *)
Definition supply_cursor (g : Supply W T) : W → completion (Iterator W T) * W :=
  match symbol_iterator g with
  | Some f => f
  | None => match symbol_asyncIterator g with
            | Some f => f
            | None => call g
            end
  end.

(** [new ConcatSink(gen, options)], before any method was called. *)
Definition fresh (g : Supply W T) (o : option ConcatSinkOptions) (wd : W) : state W T :=
  {| this := constructor g o; world := wd; trace := [] |}.

End Generic.

Section Helpers.
Context {T : Type}.

(** [for (const c of chunks) { try { await writer.write(c) } catch {} }]
    on a writer attached to [s]: the completion of each write, and the
    stream afterwards. *)
Fixpoint write_each (chunks : list T) (s : stream T)
    : list (completion unit) * stream T :=
  match chunks with
  | [] => ([], s)
  | c :: rest =>
      let '(r, s1) := stream_write c s in
      let '(rs, s2) := write_each rest s1 in
      (r :: rs, s2)
  end.

(** How many chunks the consumers after the current one can take before
    one of capacity zero is reached. *)
Fixpoint reach_rest (rest : list nat) : nat :=
  match rest with
  | [] => 0
  | c :: rest' => if c =? 0 then 0 else c + reach_rest rest'
  end.

(** Whether a consumer of capacity zero comes after the current one. *)
Fixpoint blocked (rest : list nat) : bool :=
  match rest with
  | [] => false
  | c :: rest' => if c =? 0 then true else blocked rest'
  end.

(** How many chunks a pipe into consumers of these capacities delivers
    at most. *)
Definition reach (caps : list nat) : nat :=
  match caps with
  | [] => 0
  | c :: rest => c + reach_rest rest
  end.

(** How writing [m] more chunks ends when the current consumer has room
    for [room] of them. *)
Definition writes_outcome (room : nat) (rest : list nat) (m : nat) : completion unit :=
  if m <=? room + reach_rest rest then Normal ()
  else if blocked rest then Throw (ExceededChunkLimit 0)
  else Throw SupplyExhausted.

(** How a pipe of [m] chunks into consumers of these capacities ends. *)
Definition pipe_outcome (caps : list nat) (m : nat) : completion unit :=
  match caps with
  | [] => Throw SupplyExhausted
  | c :: rest => writes_outcome c rest m
  end.

(** The consumer the sink was writing to, after the sink aborted it:
    errored with the reason, as is the in-memory stream under it. *)
Definition aborted (cap : nat) (buf : list T) (reason : jsval) : stream T :=
  LimitedWritableStream (Errored reason) false cap (length buf) None true
    (InMemoryWritableStream (Errored reason) false buf).

(** [start], the writes, then [abort(reason)]: a pipe that is aborted
    once the chunks are written. *)
Definition pipe_array_aborted (caps : list nat) (chunks : list T) (reason : jsval)
    : completion unit * state (World T) T :=
  bind start (λ _, bind (write_all chunks) (λ _, sink_abort reason))
    (initial (array_supply (seq 0 (length caps))) None (world_of caps)).

End Helpers.
End Usage.

(** ** More sinks at work *)
Module Scenes.
Import Sink Platform Examples.

(** A supply that is neither iterable nor async iterable and whose call
    throws. *)
Definition throwing_supply : Supply (World nat) nat :=
  {| symbol_iterator := None;
     symbol_asyncIterator := None;
     call := λ w, (Throw (JSValue 3), w) |}.

(** Two consumers of capacity one, the second of which somebody else
    holds a writer on; the sink is started and the first consumer holds
    its chunk. *)
Definition second_taken : state (World nat) nat :=
  (sink_write 10
     (start (initial (array_supply [0; 1]) None
        {| heap := [consumer 1; set_locked true (consumer 1)];
           writers := []; array_index := 0;
           generator := SuspendedStart; cnt := 0 |})).2).2.

(** A sink over the generator of the test file building consumers of
    capacity zero, after a write that the first and the second consumer
    rejected: the handle held is on the second, which is errored. *)
Definition both_rejected : state (World nat) nat :=
  (sink_write 10 (generated 2 0 None)).2.

(** A sink over the generator of the test file, started and closed. *)
Definition closed_once : state (World nat) nat :=
  (sink_close (generated 1 5 None)).2.

(** A cursor over two streams whose [return] throws, and a sink over
    it, started on two consumers of capacity one. *)
Definition stubborn_cursor : Iterator (World nat) nat :=
  {| iter_next := iter_next (array_iterator [0; 1]);
     iter_return := Some (λ _ w, (Throw (JSValue 5), w));
     iter_throw := None |}.

Definition stubborn : state (World nat) nat :=
  (start (initial
            {| symbol_iterator := Some (λ w, (Normal stubborn_cursor, w));
               symbol_asyncIterator := None;
               call := λ w, (Throw (JSTypeError "this.#gen is not a function"), w) |}
            None (world_of [1; 1]))).2.

(** A cursor whose [next] throws a range error of its own, and a sink
    that has obtained it. *)
Definition failing_cursor : Iterator (World nat) nat :=
  {| iter_next := λ _ w, (Throw (JSRangeError "No stream left"), w);
     iter_return := None;
     iter_throw := None |}.

Definition failing : state (World nat) nat :=
  (start (initial
            {| symbol_iterator := Some (λ w, (Normal failing_cursor, w));
               symbol_asyncIterator := None;
               call := λ w, (Throw (JSTypeError "this.#gen is not a function"), w) |}
            None (world_of []))).2.

(** A cursor over two streams whose [return] returns when it is called
    for the first time and throws from then on (it counts its calls in
    [cnt]), and a sink over it with [preventClose] set, started on two
    consumers of capacity one. *)
Definition moody_cursor : Iterator (World nat) nat :=
  {| iter_next := iter_next (array_iterator [0; 1]);
     iter_return := Some (λ _ w,
       if cnt w =? 0 then (Normal (), set_cnt 1 w) else (Throw (JSValue 5), w));
     iter_throw := None |}.

Definition moody : state (World nat) nat :=
  (start (initial
            {| symbol_iterator := Some (λ w, (Normal moody_cursor, w));
               symbol_asyncIterator := None;
               call := λ w, (Throw (JSTypeError "this.#gen is not a function"), w) |}
            (Some {| preventAbort := None; preventClose := Some true |})
            (world_of [1; 1]))).2.

End Scenes.

Import Sink Platform.

(** * Properties of the sink, for arbitrary collaborators *)

(** Unfolds a method down to the calls it makes on its collaborators. *)
Ltac unfold_sink :=
  unfold sink_write, sink_close, sink_abort, next, start, submit, release,
    opt_call, try_catch, invoke, get_iter, get_writer, get_options, get_gen,
    set_writer, set_iter, throw, new_events;
  unfold mbind, M_bind, bind, ret.

(** Runs a method on the known answers of its collaborators. *)
Ltac run_sink :=
  unfold_sink; unfold mbind in *;
  repeat (simpl in *; match goal with H : _ = _ |- _ => rewrite H end);
  simpl.

(** Closes a goal on a state reached by appending to the trace. *)
Ltac trace_done :=
  (eexists; split; [reflexivity|]); simpl;
  rewrite <- ?app_assoc; simpl; by rewrite drop_app_length.

(** Splits a state into its fields and uses what is known of them. *)
Ltac open_state st :=
  destruct st as [[? ? ? ?] ? ?]; simpl in *; simplify_eq.

(** * Properties of pipes over the helper streams *)
Import Model.

Global Arguments ExceededChunkLimit : simpl never.

Lemma insert_middle {A} (l1 l2 : list A) (x y : A) (i : nat) :
  i = length l1 → <[i := y]> (l1 ++ x :: l2) = l1 ++ y :: l2.
Proof. intros ->. by rewrite <- (Nat.add_0_r (length l1)), insert_app_r. Qed.

Lemma alter_middle {A} (f : A → A) (l1 l2 : list A) (x : A) (i : nat) :
  i = length l1 → alter f i (l1 ++ x :: l2) = l1 ++ f x :: l2.
Proof. intros ->. by rewrite <- (Nat.add_0_r (length l1)), alter_app_r. Qed.

Lemma lookup_after_middle {A} (l1 l2 : list A) (x y : A) (i : nat) :
  i = S (length l1) → (l1 ++ x :: y :: l2) !! i = Some y.
Proof.
  intros ->. rewrite (cons_middle x), app_assoc.
  apply list_lookup_middle. rewrite length_app; simpl; lia.
Qed.

Lemma insert_after_middle {A} (l1 l2 : list A) (x y z : A) (i : nat) :
  i = S (length l1) → <[i := z]> (l1 ++ x :: y :: l2) = (l1 ++ [x]) ++ z :: l2.
Proof.
  intros ->. rewrite (cons_middle x), app_assoc.
  apply insert_middle. rewrite length_app; simpl; lia.
Qed.

Ltac split_all := repeat match goal with |- _ ∧ _ => split end.

Section SinkProperties.
Context {W T : Type}.
Implicit Types (st : state W T) (w : WritableStreamDefaultWriter W T)
  (it : Iterator W T) (value : WritableStream W T) (chunk : T)
  (reason e : jsval).

Lemma new_events_app st (tr : list (event T)) (x : ConcatSink W T) (wd : W) :
  new_events st {| this := x; world := wd; trace := trace st ++ tr |} = tr.
Proof. unfold new_events; simpl. by rewrite drop_app_length. Qed.

(** An advance whose pull yields a stream: the calls it makes, in order. *)
Lemma next_yields st it w reason value w' (w1 w2 : W) :
  iter (this st) = Some it →
  writer (this st) = Some w →
  iter_next it reason (world st) = (Normal (IterValue value), w1) →
  getWriter value (releaseLock w w1) = (Normal w', w2) →
  ∃ st', next reason st = (Normal w', st')
    ∧ new_events st st' = [EvIterNext reason; EvReleaseLock (writer_id w);
                            EvGetWriter (stream_id value)]
    ∧ world st' = w2
    ∧ writer (this st') = Some w'
    ∧ iter (this st') = Some it
    ∧ options (this st') = options (this st).
Proof.
  intros Hi Hw Hn Hg. open_state st. unfold_sink. simpl.
  rewrite Hn. simpl. rewrite Hg. simpl.
  eexists; split; [reflexivity|]. simpl.
  rewrite <- !app_assoc. simpl.
  by rewrite drop_app_length.
Qed.

(** An advance whose pull reports the end of the supply. *)
Lemma next_done st it reason (w1 : W) :
  iter (this st) = Some it →
  iter_next it reason (world st) = (Normal IterDone, w1) →
  next reason st =
    (Throw SupplyExhausted,
     {| this := this st; world := w1; trace := trace st ++ [EvIterNext reason] |}).
Proof.
  intros Hi Hn. open_state st. unfold_sink. simpl. by rewrite Hn.
Qed.


(** What an advance returns, by what the cursor answered: the sink's own
    range error exactly when the cursor reports the end; otherwise the
    only errors are the collaborators' own. *)
Lemma next_outcome st it reason (r : completion (IteratorResult W T)) (w1 : W) :
  iter (this st) = Some it →
  iter_next it reason (world st) = (r, w1) →
  (next reason st).1 =
    match r with
    | Normal IterDone => Throw SupplyExhausted
    | Normal (IterValue value) =>
        (getWriter value
           (match writer (this st) with
            | Some w => releaseLock w w1
            | None => w1
            end)).1
    | Throw e => Throw e
    end.
Proof.
  intros Hi Hn. open_state st. unfold_sink. simpl. rewrite Hn.
  destruct r as [[|value]|e]; simpl; try done.
  match goal with |- context [match ?o with Some _ => _ | None => _ end] =>
    destruct o end; simpl;
    by destruct (getWriter value _) as [[?|?] ?].
Qed.

(** C5 (as amended). The advance pulls the next consumer from the cursor
    first, passing the reason, while the handle it holds is still held.
    When the cursor reports the end or throws, that is all it does: the
    handle is not released.  Only when the cursor yielded a stream does
    it release the handle it holds, and it then asks the yielded stream
    for a handle and installs it if it gets one.  The stream left
    behind is neither closed nor aborted: the three calls are all the
    advance does. *)
Theorem advance_pulls_then_releases st it w reason
    (r : completion (IteratorResult W T)) (w1 : W) :
  iter (this st) = Some it →
  writer (this st) = Some w →
  iter_next it reason (world st) = (r, w1) →
  take 1 (new_events st (next reason st).2) = [EvIterNext reason]
  ∧ ((∀ value, r ≠ Normal (IterValue value)) →
     next reason st
     = (Throw (match r with Throw e => e | Normal _ => SupplyExhausted end),
        {| this := this st; world := w1; trace := trace st ++ [EvIterNext reason] |})
     ∧ new_events st (next reason st).2 = [EvIterNext reason])
  ∧ (∀ value (rg : completion (WritableStreamDefaultWriter W T)) (w2 : W),
       r = Normal (IterValue value) →
       getWriter value (releaseLock w w1) = (rg, w2) →
       ∃ st', next reason st = (rg, st')
         ∧ new_events st st' = [EvIterNext reason; EvReleaseLock (writer_id w);
                                 EvGetWriter (stream_id value)]
         ∧ released_then_pulled (new_events st st') = false
         ∧ Forall (λ ev, is_finalize ev = false) (new_events st st')
         ∧ world st' = w2
         ∧ writer (this st')
           = Some (match rg with Normal w' => w' | Throw _ => w end)).
Proof.
  intros Hi Hw Hn. open_state st. split_all.
  - unfold_sink. simpl. rewrite Hn. simpl.
    destruct r as [[|value]|e]; simpl; rewrite ?drop_app_length; try done.
    destruct (getWriter value (releaseLock w w1)) as [[w'|e] w2]; simpl;
      rewrite <- ?app_assoc; by rewrite drop_app_length.
  - intros Hr. unfold_sink. simpl. rewrite Hn. simpl.
    destruct r as [[|value]|e]; simpl; rewrite ?drop_app_length; try done.
    by destruct (Hr value).
  - intros value rg w2 -> Hg. unfold_sink. simpl. rewrite Hn. simpl. rewrite Hg.
    destruct rg as [w'|e]; simpl;
      (eexists; split; [reflexivity|]); simpl;
      rewrite <- !app_assoc; simpl; rewrite drop_app_length;
      split_all; try done; by repeat constructor.
Qed.

(** C6. [close()] signals completion into the cursor if the cursor has
    a [return] method (a generator has one, the cursor of an array has
    none), then closes the active consumer unless [preventClose] is set,
    then releases the handle.  A sink that holds no handle only signals
    the cursor. *)
Theorem close_order st (fo : option (jsval → W → completion unit * W)) (w1 : W) :
  iter (this st) ≫= iter_return = fo →
  match fo with
  | Some f => f JSUndefined (world st) = (Normal (), w1)
  | None => w1 = world st
  end →
  let signal : list (event T) :=
    match fo with Some _ => [EvIterReturn] | None => [] end in
  (∀ w, writer (this st) = Some w →
     (truthy (options (this st) ≫= preventClose) = false →
      ∀ w2 : W, close w w1 = (Normal (), w2) →
      ∃ st', sink_close st = (Normal (), st')
        ∧ new_events st st' = signal ++ [EvClose (writer_id w);
                                           EvReleaseLock (writer_id w)]
        ∧ world st' = releaseLock w w2)
     ∧ (truthy (options (this st) ≫= preventClose) = true →
        ∃ st', sink_close st = (Normal (), st')
          ∧ new_events st st' = signal ++ [EvReleaseLock (writer_id w)]
          ∧ world st' = releaseLock w w1))
  ∧ (writer (this st) = None →
     sink_close st
     = (Normal (), {| this := this st; world := w1; trace := trace st ++ signal |})).
Proof.
  intros Hfo Hf signal. subst signal. destruct st as [[g o i wr] wd tr].
  simpl in *. split.
  - intros w ->.
    destruct i as [it|]; simpl in Hfo;
      [destruct (iter_return it) as [f|] eqn:Hr|]; subst fo; try subst w1;
      (split; [intros Hp w2 Hc|intros Hp]); run_sink; trace_done.
  - intros ->.
    destruct i as [it|]; simpl in Hfo;
      [destruct (iter_return it) as [f|] eqn:Hr|]; subst fo; try subst w1;
      run_sink; rewrite ?app_nil_r; by destruct (negb _).
Qed.

(** C7. [abort(reason)] signals the failure into the cursor with the
    same reason if the cursor has a [throw] method (a generator has one,
    the cursor of an array has none), and whatever that signal returns
    or throws is dropped; then it aborts the active consumer with that
    reason unless [preventAbort] is set, then releases the handle.  A
    sink that holds no handle only signals the cursor. *)
Theorem abort_order st reason (fo : option (jsval → W → completion unit * W))
    (r : completion unit) (w1 : W) :
  iter (this st) ≫= iter_throw = fo →
  match fo with
  | Some f => f reason (world st) = (r, w1)
  | None => w1 = world st
  end →
  let signal : list (event T) :=
    match fo with Some _ => [EvIterThrow reason] | None => [] end in
  (∀ w, writer (this st) = Some w →
     (truthy (options (this st) ≫= preventAbort) = false →
      ∀ w2 : W, abort w reason w1 = (Normal (), w2) →
      ∃ st', sink_abort reason st = (Normal (), st')
        ∧ new_events st st' = signal ++ [EvAbort (writer_id w) reason;
                                           EvReleaseLock (writer_id w)]
        ∧ world st' = releaseLock w w2)
     ∧ (truthy (options (this st) ≫= preventAbort) = true →
        ∃ st', sink_abort reason st = (Normal (), st')
          ∧ new_events st st' = signal ++ [EvReleaseLock (writer_id w)]
          ∧ world st' = releaseLock w w1))
  ∧ (writer (this st) = None →
     sink_abort reason st
     = (Normal (), {| this := this st; world := w1; trace := trace st ++ signal |})).
Proof.
  intros Hfo Hf signal. subst signal. destruct st as [[g o i wr] wd tr].
  simpl in *. split.
  - intros w ->.
    destruct i as [it|]; simpl in Hfo;
      [destruct (iter_throw it) as [f|] eqn:Hr|]; subst fo; try subst w1;
      (split; [intros Hp w2 Hc|intros Hp]);
      try (destruct r as [[]|e']); run_sink; trace_done.
  - intros ->.
    destruct i as [it|]; simpl in Hfo;
      [destruct (iter_throw it) as [f|] eqn:Hr|]; subst fo; try subst w1;
      try (destruct r as [[]|e']); run_sink; rewrite ?app_nil_r; by destruct (negb _).
Qed.

(** Every path through a method ends in a state whose trace extends the
    one it started from; this closes goals on what was added. *)
Ltac added_events :=
  unfold new_events; simpl; rewrite <- ?app_assoc; simpl;
  rewrite drop_app_length; done.

(** C3. A write whose chunk the current handle rejects advances the
    cursor once, with the rejection as reason, whatever the cursor
    answers.  When the cursor yields a stream, the same chunk is
    submitted to the new handle once; whatever that retry returns or
    throws is what the write returns or throws, no second advance is
    made, and the new handle stays installed. *)
Theorem write_retries_once st it w chunk e (w1 w2 : W) :
  iter (this st) = Some it →
  writer (this st) = Some w →
  ready w (world st) = (Normal (), w1) →
  write w chunk w1 = (Throw e, w2) →
  (advances (new_events st (sink_write chunk st).2) = 1
   ∧ take 3 (new_events st (sink_write chunk st).2)
     = [EvReady (writer_id w); EvWrite (writer_id w) chunk; EvIterNext e])
  ∧ (∀ value w' (w3 w4 w5 w6 : W) (rr rw : completion unit),
       iter_next it e w2 = (Normal (IterValue value), w3) →
       getWriter value (releaseLock w w3) = (Normal w', w4) →
       ready w' w4 = (rr, w5) →
       write w' chunk w5 = (rw, w6) →
       ∃ st', sink_write chunk st
              = (match rr with Normal _ => rw | Throw e' => Throw e' end, st')
         ∧ new_events st st' =
             [EvReady (writer_id w); EvWrite (writer_id w) chunk; EvIterNext e;
              EvReleaseLock (writer_id w); EvGetWriter (stream_id value);
              EvReady (writer_id w')]
             ++ (if is_normal rr then [EvWrite (writer_id w') chunk] else [])
         ∧ writer (this st') = Some w'
         ∧ world st' = (if is_normal rr then w6 else w5)).
Proof.
  intros Hi Hw Hr1 Hw1. open_state st. split.
  - run_sink.
    destruct (iter_next it e w2) as [[[|value]|e1] w3]; simpl; [split; added_events| |split; added_events].
    destruct (getWriter value (releaseLock w w3)) as [[w'|e2] w4]; simpl; [|split; added_events].
    destruct (ready w' w4) as [[[]|e3] w5]; simpl; [|split; added_events].
    destruct (write w' chunk w5) as [[[]|e4] w6]; simpl; split; added_events.
  - intros value w' w3 w4 w5 w6 rr rw Hn Hg Hr2 Hw2.
    destruct rr as [[]|e']; run_sink; trace_done.
Qed.

(** C10. A rejection of the handle's [ready] is recovered like a
    rejected chunk: nothing is submitted to the old handle, the cursor
    is advanced once with the rejection as reason, and when it yields a
    stream the chunk is submitted to the new handle. *)
Theorem ready_rejection_advances st it w chunk e (w1 : W) :
  iter (this st) = Some it →
  writer (this st) = Some w →
  ready w (world st) = (Throw e, w1) →
  (advances (new_events st (sink_write chunk st).2) = 1
   ∧ take 2 (new_events st (sink_write chunk st).2)
     = [EvReady (writer_id w); EvIterNext e])
  ∧ (∀ value w' (w2 w3 w4 w5 : W) (rr rw : completion unit),
       iter_next it e w1 = (Normal (IterValue value), w2) →
       getWriter value (releaseLock w w2) = (Normal w', w3) →
       ready w' w3 = (rr, w4) →
       write w' chunk w4 = (rw, w5) →
       ∃ st', sink_write chunk st
              = (match rr with Normal _ => rw | Throw e' => Throw e' end, st')
         ∧ new_events st st' =
             [EvReady (writer_id w); EvIterNext e;
              EvReleaseLock (writer_id w); EvGetWriter (stream_id value);
              EvReady (writer_id w')]
             ++ (if is_normal rr then [EvWrite (writer_id w') chunk] else [])
         ∧ writer (this st') = Some w'
         ∧ world st' = (if is_normal rr then w5 else w4)).
Proof.
  intros Hi Hw Hr1. open_state st. split.
  - run_sink.
    destruct (iter_next it e w1) as [[[|value]|e1] w2]; simpl; [split; added_events| |split; added_events].
    destruct (getWriter value (releaseLock w w2)) as [[w'|e2] w3]; simpl; [|split; added_events].
    destruct (ready w' w3) as [[[]|e3] w4]; simpl; [|split; added_events].
    destruct (write w' chunk w4) as [[[]|e4] w5]; simpl; split; added_events.
  - intros value w' w2 w3 w4 w5 rr rw Hn Hg Hr2 Hw2.
    destruct rr as [[]|e']; run_sink; trace_done.
Qed.

End SinkProperties.


(** Side conditions on positions in the heap and in the list of writers. *)
Ltac position := by rewrite ?length_app, ?length_fmap, ?length_replicate; simpl; try lia.

Section PipeProperties.
Context {T : Type}.
Implicit Types (chunk : T) (buf chunks : list T) (done : list (nat * list T))
  (rest caps : list nat) (k : supply_kind) (cur : stream T) (tr : list (event T)).

Lemma writers_lookup_last (m : nat) (x : option nat) :
  (replicate m (@None nat) ++ [x]) !! m = Some x.
Proof. by rewrite lookup_app_r, length_replicate, Nat.sub_diag by (by rewrite length_replicate). Qed.

Lemma attached_at k done cur (held : bool) rest :
  attached (length done) (world_at k done cur held rest)
  = if held then Some (length done) else None.
Proof. unfold attached; simpl. rewrite writers_lookup_last. by destruct held. Qed.

Lemma heap_at k done cur held rest :
  heap (world_at k done cur held rest) !! length done = Some cur.
Proof. simpl. by rewrite list_lookup_middle by (by rewrite length_fmap). Qed.

(** A method of the held handle acts on the current consumer only. *)
Lemma on_stream_at k done cur rest (f : stream T → completion unit * stream T) :
  on_stream (length done) f (world_at k done cur true rest)
  = ((f cur).1, world_at k done (f cur).2 true rest).
Proof.
  unfold on_stream. rewrite attached_at, heap_at.
  destruct (f cur) as [r cur']; simpl. f_equal.
  unfold set_heap, world_at; simpl. f_equal.
  by rewrite insert_middle by position.
Qed.


Lemma release_at k done cur rest :
  release_lock (length done) (world_at k done cur true rest)
  = world_at k done (set_locked false cur) false rest.
Proof.
  unfold release_lock. rewrite attached_at.
  unfold set_writers, set_heap, world_at; simpl. f_equal.
  - by rewrite alter_middle by position.
  - by rewrite insert_middle by position.
Qed.

Lemma release_at_released k done cur rest :
  release_lock (length done) (world_at k done cur false rest)
  = world_at k done cur false rest.
Proof. unfold release_lock. by rewrite attached_at. Qed.

Lemma stream_write_current cap buf chunk :
  length buf < cap →
  stream_write chunk (current cap buf) = (Normal (), current cap (buf ++ [chunk])).
Proof.
  intros Hlt. unfold current; simpl.
  destruct (Nat.ltb_spec cap (length buf + 1)); [lia|].
  by rewrite length_app.
Qed.

Lemma stream_write_full cap buf chunk :
  length buf = cap →
  stream_write chunk (current cap buf) = (Throw (ExceededChunkLimit cap), full true cap buf).
Proof.
  intros Heq. unfold current, full; simpl.
  by destruct (Nat.ltb_spec cap (length buf + 1)); [|lia].
Qed.

Lemma stream_close_current cap buf :
  stream_close (current cap buf) = (Normal (), closed true cap buf).
Proof. done. Qed.


Lemma seq_lookup_lt (n i : nat) : i < n → seq 0 n !! i = Some i.
Proof. intros. by rewrite lookup_seq_lt. Qed.

Lemma seq_lookup_ge (n i : nat) : n ≤ i → seq 0 n !! i = None.
Proof. intros. by rewrite lookup_seq_ge. Qed.

Lemma release_lock_attached (w : World T) (j s : nat) :
  writers w !! j = Some (Some s) →
  release_lock j w =
    {| heap := alter (set_locked false) s (heap w);
       writers := <[j := None]> (writers w);
       array_index := array_index w; generator := generator w; cnt := cnt w |}.
Proof. intros Hj. unfold release_lock, attached. by rewrite Hj. Qed.

Lemma get_writer_of_unlocked (w : World T) (s : nat) (strm : stream T) :
  heap w !! s = Some strm →
  locked strm = false →
  get_writer_of s w =
    (Normal (writer_object (length (writers w))),
     {| heap := <[s := set_locked true strm]> (heap w);
        writers := writers w ++ [Some s];
        array_index := array_index w; generator := generator w; cnt := cnt w |}).
Proof. intros Hs Hl. unfold get_writer_of. by rewrite Hs, Hl. Qed.

Lemma replicate_snoc {A} (m : nat) (x : A) : replicate m x ++ [x] = replicate (S m) x.
Proof. by rewrite <- replicate_cons_app. Qed.

(** The advance away from a consumer that rejected a chunk, when the
    supply has a further consumer. *)
Lemma advance_at k n size done cap buf c rest tr reason :
  consistent k n size done cap (c :: rest) →
  next reason (state_at k n size done (full true cap buf) true (c :: rest) tr)
  = (Normal (writer_object (S (length done))),
     state_at k n size (done ++ [(cap, buf)]) (current c []) true rest
       (tr ++ [EvIterNext reason; EvReleaseLock (length done);
               EvGetWriter (S (length done))])).
Proof.
  intros [Hn Hk]. unfold state_at. unfold_sink. simpl.
  destruct k; simpl.
  - rewrite seq_lookup_lt by (simpl in Hn; lia). simpl.
    rewrite (release_lock_attached _ _ (length done)) by apply writers_lookup_last.
    simpl.
    rewrite alter_middle, insert_middle by position.
    rewrite (get_writer_of_unlocked _ _ (consumer c)); simpl;
      [|by apply lookup_after_middle; position|done].
    rewrite insert_after_middle by position.
    unfold sink_at, world_at; simpl.
    rewrite !length_app, length_replicate, fmap_app, replicate_snoc; simpl.
    rewrite !Nat.add_1_r, <- !app_assoc. simpl. done.
  - destruct Hk as [-> Hr]. simpl in Hr. injection Hr as -> Hr.
    unfold generator_loop.
    destruct (Nat.ltb_spec (length done + 1) n); [|simpl in Hn; lia]. simpl.
    rewrite (release_lock_attached _ _ (length done)) by apply writers_lookup_last.
    simpl.
    rewrite <- app_assoc; simpl.
    rewrite alter_middle, insert_middle by position.
    rewrite !length_app, length_fmap; simpl. rewrite !Nat.add_1_r.
    rewrite (get_writer_of_unlocked _ _ (consumer size)); simpl;
      [|by apply lookup_after_middle; position|done].
    rewrite insert_after_middle by position.
    unfold sink_at, world_at; simpl.
    rewrite !length_app, length_replicate, fmap_app, replicate_snoc; simpl.
    rewrite !Nat.add_1_r, <- !app_assoc. simpl. done.
Qed.


Lemma stream_ready_current cap buf : stream_ready (current cap buf) = Normal ().
Proof. done. Qed.

(** Submitting a chunk the current consumer has room for. *)
Lemma submit_within k n size done cap buf rest tr chunk (j : nat) :
  j = length done →
  length buf < cap →
  submit (writer_object j) chunk
    (state_at k n size done (current cap buf) true rest tr)
  = (Normal (),
     state_at k n size done (current cap (buf ++ [chunk])) true rest
       (tr ++ [EvReady j; EvWrite j chunk])).
Proof.
  intros -> Hlt. unfold state_at. unfold_sink. simpl.
  rewrite on_stream_at. simpl.
  rewrite on_stream_at, stream_write_current by done. simpl.
  by rewrite <- app_assoc.
Qed.

(** Submitting a chunk to a consumer that is at its capacity. *)
Lemma submit_full k n size done cap buf rest tr chunk :
  length buf = cap →
  submit (writer_object (length done)) chunk
    (state_at k n size done (current cap buf) true rest tr)
  = (Throw (ExceededChunkLimit cap),
     state_at k n size done (full true cap buf) true rest
       (tr ++ [EvReady (length done); EvWrite (length done) chunk])).
Proof.
  intros Heq. unfold state_at. unfold_sink. simpl.
  rewrite on_stream_at. simpl.
  rewrite on_stream_at, stream_write_full by done. simpl.
  by rewrite <- app_assoc.
Qed.

Lemma sink_write_at k n size done cur held rest tr chunk :
  sink_write chunk (state_at k n size done cur held rest tr)
  = try_catch (submit (writer_object (length done)) chunk)
      (λ err, bind (next err) (λ nextWriter, submit nextWriter chunk))
      (state_at k n size done cur held rest tr).
Proof. done. Qed.

Lemma write_within k n size done cap buf rest tr chunk :
  length buf < cap →
  sink_write chunk (state_at k n size done (current cap buf) true rest tr)
  = (Normal (),
     state_at k n size done (current cap (buf ++ [chunk])) true rest
       (tr ++ [EvReady (length done); EvWrite (length done) chunk])).
Proof.
  intros Hlt. rewrite sink_write_at. unfold try_catch.
  by rewrite submit_within.
Qed.

(** A chunk beyond the capacity of the current consumer goes to the next
    one. *)
Lemma write_advances k n size done cap buf c rest tr chunk :
  length buf = cap →
  1 ≤ c →
  consistent k n size done cap (c :: rest) →
  ∃ tr', sink_write chunk (state_at k n size done (current cap buf) true (c :: rest) tr)
  = (Normal (),
     state_at k n size (done ++ [(cap, buf)]) (current c [chunk]) true rest tr')
  ∧ advances tr' = S (advances tr).
Proof.
  intros Heq Hc Hk. rewrite sink_write_at. unfold try_catch.
  rewrite submit_full by done.
  unfold bind. rewrite advance_at by done.
  rewrite (submit_within k n size (done ++ [(cap, buf)]) c [])
    by (simpl; first [position | lia]).
  eexists; split; [reflexivity|].
  unfold advances. rewrite !filter_app, !length_app. simpl. lia.
Qed.

(** A chunk beyond the capacity of the last consumer of an array. *)
Lemma write_exhausts n size done cap buf tr chunk :
  length buf = cap →
  consistent FromArray n size done cap [] →
  sink_write chunk (state_at FromArray n size done (current cap buf) true [] tr)
  = (Throw SupplyExhausted,
     state_at FromArray n size done (full true cap buf) true []
       (tr ++ [EvReady (length done); EvWrite (length done) chunk;
               EvIterNext (ExceededChunkLimit cap)])).
Proof.
  intros Heq [Hn _]. rewrite sink_write_at. unfold try_catch.
  rewrite submit_full by done.
  unfold state_at. unfold_sink. simpl.
  rewrite seq_lookup_ge by (simpl in Hn; lia). simpl.
  by rewrite <- app_assoc.
Qed.

Lemma write_all_app (xs ys : list T) (st : state (World T) T) :
  write_all (xs ++ ys) st = bind (write_all xs) (λ _, write_all ys) st.
Proof.
  revert st. induction xs as [|x xs IH]; intros st; simpl; [done|].
  unfold mbind, M_bind, bind in *.
  destruct (sink_write x st) as [[[]|e] st1]; [|done]. apply IH.
Qed.

(** Chunks the current consumer has room for all go to it. *)
Lemma write_all_within k n size done cap rest chunks : ∀ buf tr,
  length buf + length chunks ≤ cap →
  ∃ tr', write_all chunks (state_at k n size done (current cap buf) true rest tr)
  = (Normal (), state_at k n size done (current cap (buf ++ chunks)) true rest tr')
  ∧ advances tr' = advances tr.
Proof.
  induction chunks as [|x xs IH]; intros buf tr Hle; simpl in *.
  - exists tr. by rewrite app_nil_r.
  - unfold mbind, M_bind, bind. rewrite write_within by lia.
    destruct (IH (buf ++ [x]) (tr ++ [EvReady (length done); EvWrite (length done) x]))
      as (tr' & -> & Htr); [rewrite length_app; simpl; lia|].
    exists tr'. rewrite <- app_assoc. split; [done|].
    rewrite Htr. unfold advances. rewrite filter_app, length_app. simpl. lia.
Qed.

(** The handles do not touch the cursor's own state. *)
Lemma on_stream_cursor (j : nat) (f : stream T → completion unit * stream T)
    (g : generator_state) (c : nat) (w : World T) :
  on_stream j f (set_generator g (set_cnt c w))
  = ((on_stream j f w).1, set_generator g (set_cnt c (on_stream j f w).2)).
Proof.
  unfold on_stream, attached; simpl.
  destruct (mjoin (writers w !! j)) as [s|]; [|done].
  destruct (heap w !! s) as [strm|]; [|done].
  by destruct (f strm).
Qed.

Lemma release_lock_cursor (j : nat) (g : generator_state) (c : nat) (w : World T) :
  release_lock j (set_generator g (set_cnt c w))
  = set_generator g (set_cnt c (release_lock j w)).
Proof.
  unfold release_lock, attached; simpl.
  by destruct (mjoin (writers w !! j)).
Qed.

(** Closing the sink closes the current consumer and releases it. *)
Lemma close_at k n size done cap buf rest tr :
  ∃ tr', sink_close (state_at k n size done (current cap buf) true rest tr)
  = (Normal (),
     {| this := sink_at k n size (length done);
        world := world_closed k done cap buf rest;
        trace := tr' |}).
Proof.
  unfold state_at. unfold_sink. destruct k; simpl.
  - rewrite on_stream_at, stream_close_current. simpl.
    rewrite release_at. simpl. by eexists.
  - rewrite on_stream_cursor, on_stream_at, stream_close_current. simpl.
    rewrite release_lock_cursor, release_at. simpl.
    rewrite Nat.add_1_r. by eexists.
Qed.

(** Starting the sink pulls the first consumer and takes a handle on it. *)
Lemma start_at k n size c rest :
  consistent (T:=T) k n size [] c rest →
  ∃ tr', start (initial (supply_of k n size) None
                  (world_of (match k with FromArray => c :: rest | FromGenerator => [] end)))
  = (Normal (), state_at k n size [] (current c []) true rest tr')
  ∧ advances tr' = 1.
Proof.
  intros [Hn Hk]. unfold state_at, initial, Sink.constructor, start. unfold_sink.
  destruct k; simpl.
  - rewrite seq_lookup_lt by (simpl in Hn; lia). simpl.
    by eexists.
  - destruct Hk as [-> Hr]. unfold generator_loop.
    destruct (Nat.ltb_spec 0 n); [|simpl in Hn; lia]. simpl.
    by eexists.
Qed.


(** ** The expected distribution *)

Lemma distribute_length caps chunks : length (distribute caps chunks) = length caps.
Proof. revert chunks. induction caps; intros; simpl; [done|]. by rewrite IHcaps. Qed.

Lemma distribute_nil caps : distribute caps (@nil T) = replicate (length caps) [].
Proof.
  induction caps as [|c cs IH]; simpl; [done|].
  by rewrite take_nil, drop_nil, IH.
Qed.

Lemma concat_distribute caps chunks :
  concat (distribute caps chunks) = take (sum_list caps) chunks.
Proof.
  revert chunks. induction caps as [|c cs IH]; intros chunks; simpl.
  - by rewrite take_0.
  - by rewrite IH, take_take_drop.
Qed.

Lemma distribute_uniform (N K i : nat) chunks :
  i < N → distribute (replicate N K) chunks !! i = Some (take K (drop (i * K) chunks)).
Proof.
  revert i chunks. induction N as [|N IH]; intros i chunks Hi; [lia|].
  destruct i as [|i]; simpl; [done|].
  rewrite IH by lia. by rewrite drop_drop.
Qed.

Lemma consistent_step k n size done cap buf c rest :
  consistent k n size done cap (c :: rest) →
  consistent k n size (done ++ [(cap, buf)]) c rest.
Proof.
  intros [Hn Hk]. split.
  - rewrite length_app. simpl in *. lia.
  - destruct k; [done|]. destruct Hk as [-> Hr]. simpl in Hr.
    by injection Hr as -> Hr.
Qed.

(** Writing chunks that fit into the current consumer and the ones
    still to come: the run of the pipe up to its close. *)
Lemma write_all_at k n size : ∀ rest done cap buf chunks tr,
  consistent k n size done cap rest →
  (chunks ≠ [] → Forall (λ c, 1 ≤ c) rest) →
  length buf ≤ cap →
  length buf + length chunks ≤ cap + sum_list rest →
  ∃ done' cap' buf' rest' tr',
    write_all chunks (state_at k n size done (current cap buf) true rest tr)
    = (Normal (), state_at k n size done' (current cap' buf') true rest' tr')
    ∧ consistent k n size done' cap' rest'
    ∧ done'.*2 ++ buf' :: replicate (length rest') []
      = done.*2 ++ distribute (cap :: rest) (buf ++ chunks)
    ∧ done'.*1 ++ cap' :: rest' = done.*1 ++ cap :: rest
    ∧ advances tr' + length done = advances tr + length done'
    ∧ length buf' ≤ cap'
    ∧ (buf' = [] → buf = [] ∧ chunks = [])
    ∧ (Forall filled done → Forall filled done').
Proof.
  induction rest as [|c rest IH]; intros done cap buf chunks tr Hk Hpos Hbuf Hlen.
  - simpl in Hlen.
    destruct (write_all_within k n size done cap [] chunks buf tr) as (tr' & Hrun & Htr);
      [lia|].
    exists done, cap, (buf ++ chunks), [], tr'. simpl.
    rewrite take_ge by (rewrite length_app; lia).
    split_all; try done; try lia; try (rewrite length_app; lia).
    intros Hnil. by apply app_nil in Hnil.
  - destruct (decide (length buf + length chunks ≤ cap)) as [Hfit|Hover].
    + destruct (write_all_within k n size done cap (c :: rest) chunks buf tr)
        as (tr' & Hrun & Htr); [lia|].
      exists done, cap, (buf ++ chunks), (c :: rest), tr'.
      cbn [distribute].
      rewrite take_ge, drop_ge by (rewrite length_app; lia).
      rewrite take_nil, drop_nil, distribute_nil. simpl.
      split_all; try done; try lia; try (rewrite length_app; lia).
      intros Hnil. by apply app_nil in Hnil.
    + set (m := cap - length buf).
      assert (Hsplit : chunks = take m chunks ++ drop m chunks) by (by rewrite take_drop).
      destruct (drop m chunks) as [|x xs2] eqn:Hdrop.
      { apply (f_equal length) in Hdrop. rewrite length_drop in Hdrop.
        simpl in Hdrop. lia. }
      assert (Hxs1 : length (take m chunks) = m).
      { rewrite length_take. apply (f_equal length) in Hdrop.
        rewrite length_drop in Hdrop. simpl in Hdrop. lia. }
      set (xs1 := take m chunks) in *.
      rewrite Hsplit, write_all_app. unfold bind.
      destruct (write_all_within k n size done cap (c :: rest) xs1 buf tr)
        as (tr1 & -> & Htr1); [lia|].
      simpl. unfold mbind, M_bind, bind.
      assert (Hne0 : chunks ≠ []) by (intros ->; by rewrite drop_nil in Hdrop).
      apply Hpos, Forall_cons in Hne0 as [Hc Hpos'].
      destruct (write_advances k n size done cap (buf ++ xs1) c rest tr1 x)
        as (tr2 & -> & Htr2); [rewrite length_app; lia|done|done|].
      destruct (IH (done ++ [(cap, buf ++ xs1)]) c [x] xs2 tr2)
        as (done' & cap' & buf' & rest' & tr' & -> & Hk' & Hdist & Hcaps & Htr' & Hb' & Hne & Hfill);
        [by apply consistent_step|done|simpl; lia| |].
      { apply (f_equal length) in Hsplit. rewrite length_app in Hsplit.
        simpl in *. lia. }
      exists done', cap', buf', rest', tr'.
      split_all; try done.
      * rewrite Hdist. rewrite fmap_app, <- app_assoc. simpl.
        rewrite (app_assoc buf xs1).
        rewrite take_app_length', drop_app_length' by (rewrite length_app; lia).
        done.
      * rewrite Hcaps, fmap_app, <- app_assoc. done.
      * rewrite length_app in Htr'. simpl in Htr'. lia.
      * intros Hnil. by destruct (Hne Hnil).
      * intros Hf. apply Hfill. apply Forall_app; split; [done|].
        apply Forall_singleton. unfold filled; simpl. rewrite length_app. lia.
Qed.


Lemma split_overflow chunks (m : nat) :
  m < length chunks →
  ∃ xs1 x xs2, chunks = xs1 ++ x :: xs2 ∧ length xs1 = m.
Proof.
  intros Hm. destruct (drop m chunks) as [|x xs2] eqn:Hdrop.
  - apply (f_equal length) in Hdrop. rewrite length_drop in Hdrop.
    simpl in Hdrop. lia.
  - exists (take m chunks), x, xs2. split.
    + by rewrite <- Hdrop, take_drop.
    + rewrite length_take. lia.
Qed.

(** Writing more chunks than the current consumer and the ones still to
    come can hold, from an array of consumers. *)
Lemma write_all_exhausts n size : ∀ rest done cap buf chunks tr,
  consistent FromArray n size done cap rest →
  Forall (λ c, 1 ≤ c) rest →
  length buf ≤ cap →
  cap + sum_list rest < length buf + length chunks →
  ∃ done' cap' buf' tr',
    write_all chunks (state_at FromArray n size done (current cap buf) true rest tr)
    = (Throw SupplyExhausted,
       state_at FromArray n size done' (full true cap' buf') true [] tr')
    ∧ done'.*2 ++ [buf'] = done.*2 ++ distribute (cap :: rest) (buf ++ chunks)
    ∧ done'.*1 ++ [cap'] = done.*1 ++ cap :: rest
    ∧ last tr' = Some (EvIterNext (ExceededChunkLimit cap'))
    ∧ length buf' = cap'.
Proof.
  induction rest as [|c rest IH]; intros done cap buf chunks tr Hk Hpos Hbuf Hlen;
    simpl in Hlen;
    destruct (split_overflow chunks (cap - length buf)) as (xs1 & x & xs2 & -> & Hxs1);
    try lia;
    rewrite write_all_app; unfold bind.
  - destruct (write_all_within FromArray n size done cap [] xs1 buf tr)
      as (tr1 & -> & Htr1); [lia|].
    simpl. unfold mbind, M_bind, bind.
    rewrite write_exhausts by (first [rewrite length_app; lia | done]).
    exists done, cap, (buf ++ xs1). eexists. split; [reflexivity|].
    split_all.
    + rewrite (app_assoc buf xs1).
      by rewrite take_app_length' by (rewrite length_app; lia).
    + done.
    + by rewrite last_app.
    + rewrite length_app; lia.
  - destruct (write_all_within FromArray n size done cap (c :: rest) xs1 buf tr)
      as (tr1 & -> & Htr1); [lia|].
    simpl. unfold mbind, M_bind, bind.
    apply Forall_cons in Hpos as [Hc Hpos].
    destruct (write_advances FromArray n size done cap (buf ++ xs1) c rest tr1 x)
      as (tr2 & -> & Htr2); [rewrite length_app; lia|done|done|].
    destruct (IH (done ++ [(cap, buf ++ xs1)]) c [x] xs2 tr2)
      as (done' & cap' & buf' & tr' & -> & Hdist & Hcaps & Hlast & Hb');
      [by apply consistent_step|done|simpl; lia| |].
    { rewrite length_app in Hlen. simpl in *. lia. }
    exists done', cap', buf', tr'. split_all; try done.
    + rewrite Hdist. rewrite fmap_app, <- app_assoc. simpl.
      rewrite (app_assoc buf xs1).
      by rewrite take_app_length', drop_app_length' by (rewrite length_app; lia).
    + by rewrite Hcaps, fmap_app, <- app_assoc.
Qed.

(** What the consumers hold once the pipe is over. *)
Lemma received_left_behind done : received <$> (left_behind <$> done) = done.*2.
Proof. induction done as [|[??] ? IH]; [done|]. cbn. by f_equal. Qed.

Lemma received_consumer rest : received <$> (consumer (T:=T) <$> rest) = replicate (length rest) [].
Proof. induction rest as [|? ? IH]; [done|]. cbn. by f_equal. Qed.

Lemma heap_world_closed k done cap buf rest :
  heap (world_closed k done cap buf rest)
  = (left_behind <$> done) ++ closed false cap buf ::
      match k with FromArray => consumer <$> rest | FromGenerator => [] end.
Proof. by destruct k. Qed.

Lemma locked_left_behind done : Forall (λ s, locked s = false) (left_behind <$> done).
Proof. apply Forall_fmap, Forall_forall. by intros [??] _. Qed.

Lemma locked_consumer rest : Forall (λ s, locked s = false) (consumer (T:=T) <$> rest).
Proof. apply Forall_fmap, Forall_forall. by intros ? _. Qed.


Lemma pipeTo_unfold chunks (st : state (World T) T) :
  pipeTo chunks st
  = bind (bind start (λ _, write_all chunks)) (λ _, sink_close) st.
Proof.
  unfold pipeTo, mbind, M_bind, bind.
  destruct (start st) as [[[]|e] st1]; [|done].
  by destruct (write_all chunks st1) as [[[]|e] st2].
Qed.

Lemma length_concat_filled done :
  Forall filled done → length (concat (done.*2)) = sum_list (done.*1).
Proof.
  induction done as [|[c b] done1 IH]; intros Hf; [by idtac|].
  apply Forall_cons in Hf as [Hf1 Hf].
  cbn. rewrite length_app, IH by done. unfold filled in Hf1. simpl in *. lia.
Qed.

Lemma concat_replicate_nil (m : nat) : concat (replicate m (@nil T)) = [].
Proof. induction m; by idtac. Qed.

Lemma sum_list_uniform (l : list nat) (size : nat) :
  Forall (λ c, c = size) l → sum_list l = length l * size.
Proof.
  induction l as [|c l IH]; intros Hl; [by idtac|].
  apply Forall_cons in Hl as [-> Hl]. simpl. by rewrite IH.
Qed.

(** A pipe whose chunks fit into the consumers offered runs to its end. *)
Lemma pipe_completes k n size c rest chunks :
  consistent (T:=T) k n size [] c rest →
  (chunks ≠ [] → Forall (λ c, 1 ≤ c) rest) →
  length chunks ≤ c + sum_list rest →
  let init := initial (supply_of k n size) None
                (world_of (match k with FromArray => c :: rest | FromGenerator => [] end)) in
  ∃ done cap buf rest' tr1 tr2,
    bind start (λ _, write_all chunks) init
    = (Normal (), state_at k n size done (current cap buf) true rest' tr1)
    ∧ sink_close (state_at k n size done (current cap buf) true rest' tr1)
      = (Normal (),
         {| this := sink_at k n size (length done);
            world := world_closed k done cap buf rest'; trace := tr2 |})
    ∧ pipeTo chunks init
      = (Normal (),
         {| this := sink_at k n size (length done);
            world := world_closed k done cap buf rest'; trace := tr2 |})
    ∧ done.*2 ++ buf :: replicate (length rest') [] = distribute (c :: rest) chunks
    ∧ done.*1 ++ cap :: rest' = c :: rest
    ∧ advances tr1 = S (length done)
    ∧ length buf ≤ cap
    ∧ (buf = [] → chunks = [])
    ∧ length chunks = sum_list (done.*1) + length buf.
Proof.
  intros Hk Hpos Hlen init.
  destruct (start_at k n size c rest Hk) as (tr0 & Hstart & Htr0).
  destruct (write_all_at k n size rest [] c [] chunks tr0)
    as (done1 & cap & buf & rest' & tr1 & Hrun & Hk' & Hdist & Hcaps & Htr1 & Hb & Hne & Hfill);
    [done|done|simpl; lia|simpl; lia|].
  destruct (close_at k n size done1 cap buf rest' tr1) as (tr2 & Hclose).
  exists done1, cap, buf, rest', tr1, tr2.
  assert (Hrun' : bind start (λ _, write_all chunks) init
                  = (Normal (), state_at k n size done1 (current cap buf) true rest' tr1)).
  { unfold bind. subst init. by rewrite Hstart. }
  split_all; try done.
  - rewrite pipeTo_unfold. unfold bind at 1. by rewrite Hrun'.
  - simpl in Htr1. lia.
  - intros Hnil. by destruct (Hne Hnil).
  - assert (Hcc : concat (distribute (c :: rest) chunks) = chunks).
    { rewrite concat_distribute. apply take_ge. simpl. lia. }
    assert (Hd' : done1.*2 ++ buf :: replicate (length rest') []
                  = distribute (c :: rest) chunks) by exact Hdist.
    rewrite <- Hd', concat_app in Hcc. simpl in Hcc.
    rewrite concat_replicate_nil, app_nil_r in Hcc.
    apply (f_equal length) in Hcc. rewrite !length_app in Hcc.
    rewrite length_concat_filled in Hcc by (by apply Hfill). lia.
Qed.

Lemma pipe_array_cons (c : nat) rest chunks :
  pipe_array (c :: rest) chunks
  = pipeTo chunks
      (initial (supply_of FromArray (S (length rest)) 0) None
         (world_of (match FromArray with FromArray => c :: rest | FromGenerator => [] end))).
Proof. done. Qed.

Lemma sum_list_replicate (N K : nat) : sum_list (replicate N K) = N * K.
Proof. induction N; simpl; [done|]. by rewrite IHN. Qed.

Lemma data_received (strm inner : stream T) :
  (∃ d, strm = left_behind d) ∨ (∃ cap buf, strm = closed false cap buf)
  ∨ (∃ c, strm = consumer c) →
  writable_of strm = Some inner → data inner = received strm.
Proof.
  intros [[[??] ->]|[(?&?&->)|[? ->]]] [= <-]; done.
Qed.


(** On the cursors of the test file the advance throws the exhaustion
    error exactly when the cursor reports the end. *)
Lemma next_exhausted_iff (st : state (World T) T) (it : Iterator (World T) T) reason :
  iter (this st) = Some it →
  test_cursor it →
  (next reason st).1 = Throw SupplyExhausted
  ↔ (iter_next it reason (world st)).1 = Normal IterDone.
Proof.
  intros Hi Hit.
  destruct (iter_next it reason (world st)) as [r w1] eqn:Hn.
  rewrite (next_outcome st it reason r w1 Hi Hn). simpl.
  assert (Hgw : ∀ s w, (get_writer_of (T:=T) s w).1 ≠ Throw SupplyExhausted).
  { intros s w. unfold get_writer_of. by repeat case_match. }
  destruct Hit as [[arr ->]|(n & size & ->)]; simpl in Hn.
  - destruct (arr !! array_index (world st)); simplify_eq; simpl; [|by idtac].
    split; [|by idtac]. intros Hex. by apply Hgw in Hex.
  - unfold generator_loop in Hn. simpl in Hn.
    repeat case_match; simplify_eq; simpl; try (by idtac);
      (split; [|by idtac]); intros Hex; by apply Hgw in Hex.
Qed.



End PipeProperties.

(** * One handle at a time *)

(** ** For arbitrary collaborators: the calls the sink makes *)

Section HandleCount.
Context {W T : Type}.
Implicit Types (st : state W T) (tr : list (event T)) (h : nat).

(** Calls that never bring the handles in the sink's hands above one. *)
Local Abbreviation within tr := (∀ h : nat, h ≤ 1 → handles_peak h tr ≤ 1) (only parsing).

Lemma holds_foldl_le h tr : foldl holds h tr ≤ handles_peak h tr.
Proof.
  revert h. induction tr as [|ev tr IH]; intros h; simpl; [done|].
  specialize (IH (holds h ev)). lia.
Qed.

Lemma handles_peak_app h tr1 tr2 :
  handles_peak h (tr1 ++ tr2)
  = handles_peak h tr1 `max` handles_peak (foldl holds h tr1) tr2.
Proof.
  revert h. induction tr1 as [|ev tr1 IH]; intros h; simpl.
  - pose proof (holds_foldl_le h tr2) as Hle.
    destruct tr2 as [|ev tr2]; simpl in *; lia.
  - rewrite IH. lia.
Qed.

Lemma within_app tr1 tr2 : within tr1 → within tr2 → within (tr1 ++ tr2).
Proof.
  intros H1 H2 h Hh. rewrite handles_peak_app.
  pose proof (H1 h Hh). pose proof (holds_foldl_le h tr1).
  pose proof (H2 (foldl holds h tr1)). lia.
Qed.

(** Splits on whether forwarding to the consumer is suppressed. *)
Ltac case_prevent :=
  match goal with |- context [truthy ?x] => destruct (truthy x) end.

(** Closes a goal on what a method added to the trace, on one path
    through the method. *)
Ltac added_within :=
  simpl; rewrite <- ?app_assoc;
  first [ by (exists []; rewrite app_nil_r; split_all; try done; intros; simpl; lia)
        | (eexists; split; [reflexivity|]); split_all; try done;
          intros [|[|?]] ?; simpl; lia ].

Lemma submit_adds (w : WritableStreamDefaultWriter W T) (chunk : T) st :
  ∃ tr, trace (submit w chunk st).2 = trace st ++ tr
    ∧ this (submit w chunk st).2 = this st
    ∧ within tr.
Proof.
  destruct st as [x wd tr0]. unfold_sink. simpl.
  destruct (ready w wd) as [[[]|e] wd1]; simpl;
    [destruct (write w chunk wd1) as [r wd2]; simpl|]; added_within.
Qed.

(** An advance made while a handle is installed releases it before it
    asks for the next one. *)
Lemma next_adds reason st (w : WritableStreamDefaultWriter W T) :
  writer (this st) = Some w →
  ∃ tr, trace (next reason st).2 = trace st ++ tr ∧ within tr.
Proof.
  destruct st as [[g o i wr] wd tr0]. simpl. intros ->. unfold_sink. simpl.
  destruct i as [it|]; simpl; [|added_within].
  destruct (iter_next it reason wd) as [[[|value]|e] wd1]; simpl;
    [|destruct (getWriter value (releaseLock w wd1)) as [[w'|e] wd2]; simpl|];
    added_within.
Qed.

(** Whatever the collaborators answer, a call of the owning stream asks
    for a handle only after a release. *)
Lemma perform_adds (op : operation) st :
  ∃ tr, trace (perform op st).2 = trace st ++ tr ∧ within tr.
Proof.
  destruct op as [chunk| |reason]; simpl.
  - unfold sink_write, try_catch, get_writer, throw. unfold mbind, M_bind, bind. simpl.
    destruct (writer (this st)) as [w|] eqn:Hw; simpl; [|added_within].
    destruct (submit_adds w chunk st) as (tr1 & Ht1 & Hthis1 & Hq1).
    destruct (submit w chunk st) as [[[]|e] st1]; simpl in *; [by exists tr1|].
    destruct (next_adds e st1 w) as (tr2 & Ht2 & Hq2); [by rewrite Hthis1|].
    destruct (next e st1) as [[nw|e2] st2]; simpl in *.
    + destruct (submit_adds nw chunk st2) as (tr3 & Ht3 & _ & Hq3).
      exists (tr1 ++ tr2 ++ tr3). rewrite Ht3, Ht2, Ht1, <- !app_assoc.
      split; [done|]. by repeat apply within_app.
    + exists (tr1 ++ tr2). rewrite Ht2, Ht1, <- !app_assoc.
      split; [done|]. by apply within_app.
  - destruct st as [[g o i wr] wd tr0]. unfold_sink. simpl.
    destruct i as [it|]; [destruct (iter_return it) as [f|]|]; simpl;
      try (destruct (f JSUndefined wd) as [[[]|e] wd1]; simpl);
      try case_prevent; simpl;
      destruct wr as [w|]; simpl;
      try (destruct (close w _) as [[[]|e'] wd2]; simpl);
      added_within.
  - destruct st as [[g o i wr] wd tr0]. unfold_sink. simpl.
    destruct i as [it|]; [destruct (iter_throw it) as [f|]|]; simpl;
      try (destruct (f reason wd) as [[[]|e] wd1]; simpl);
      try case_prevent; simpl;
      destruct wr as [w|]; simpl;
      try (destruct (abort w reason _) as [[[]|e'] wd2]; simpl);
      added_within.
Qed.

Lemma after_adds (ops : list operation) st :
  handles_peak 0 (trace st) ≤ 1 → handles_peak 0 (trace (after ops st)) ≤ 1.
Proof.
  revert st. induction ops as [|op ops IH]; intros st Hst; [done|].
  simpl. apply IH.
  destruct (perform_adds op st) as (tr & -> & Htr).
  rewrite handles_peak_app.
  pose proof (holds_foldl_le 0 (trace st)).
  pose proof (Htr (foldl holds 0 (trace st))). lia.
Qed.

(** [start()] on a sink just built asks for one handle at most. *)
Lemma start_adds (g : Supply W T) o (wd : W) :
  handles_peak 0
    (trace (start {| this := constructor g o; world := wd; trace := [] |}).2) ≤ 1.
Proof.
  unfold start. unfold_sink. simpl.
  destruct (match symbol_iterator g with
            | Some f => f
            | None => match symbol_asyncIterator g with
                      | Some f => f
                      | None => call g
                      end
            end wd) as [[it|e] wd1]; simpl; [|lia].
  destruct (iter_next it JSUndefined wd1) as [[[|value]|e] wd2]; simpl; [lia| |lia].
  destruct (getWriter value wd2) as [[w|e] wd3]; simpl; lia.
Qed.

(** When [close()] returns, the last call it made released the handle. *)
Lemma sink_close_releases st (w : WritableStreamDefaultWriter W T) st' :
  writer (this st) = Some w →
  sink_close st = (Normal (), st') →
  last (trace st') = Some (EvReleaseLock (writer_id w))
  ∧ ∃ w0 : W, world st' = releaseLock w w0.
Proof.
  destruct st as [[g o i wr] wd tr0]. simpl. intros ->.
  unfold_sink. simpl.
  destruct i as [it|]; [destruct (iter_return it) as [f|]|]; simpl;
    try (destruct (f JSUndefined wd) as [[[]|e] wd1]; simpl);
    try case_prevent; simpl;
    try (destruct (close w _) as [[[]|e'] wd2]; simpl);
    intros [= <-]; simpl; rewrite last_snoc; eauto.
Qed.

(** When [abort(reason)] returns, likewise. *)
Lemma sink_abort_releases st (w : WritableStreamDefaultWriter W T) reason st' :
  writer (this st) = Some w →
  sink_abort reason st = (Normal (), st') →
  last (trace st') = Some (EvReleaseLock (writer_id w))
  ∧ ∃ w0 : W, world st' = releaseLock w w0.
Proof.
  destruct st as [[g o i wr] wd tr0]. simpl. intros ->.
  unfold_sink. simpl.
  destruct i as [it|]; [destruct (iter_throw it) as [f|]|]; simpl;
    try (destruct (f reason wd) as [[[]|e] wd1]; simpl);
    try case_prevent; simpl;
    try (destruct (abort w reason _) as [[[]|e'] wd2]; simpl);
    intros [= <-]; simpl; rewrite last_snoc; eauto.
Qed.

End HandleCount.

(** ** On the platform: the handles attached *)

Section HandleDiscipline.
Context {T : Type}.
Implicit Types (w : World T) (st : state (World T) T) (s j : nat)
  (cur : option nat) (it : Iterator (World T) T) (reason : jsval).

(** The methods of a stream leave its lock alone. *)
Lemma locked_stream_close (strm : stream T) : locked (stream_close strm).2 = locked strm.
Proof. destruct strm; simpl; repeat case_match; done. Qed.

Lemma locked_stream_abort reason (strm : stream T) :
  locked (stream_abort reason strm).2 = locked strm.
Proof. destruct strm; simpl; repeat case_match; done. Qed.

Lemma locked_stream_write (chunk : T) (strm : stream T) :
  locked (stream_write chunk strm).2 = locked strm.
Proof. destruct strm; simpl; repeat case_match; done. Qed.

Lemma world_inv_cursor_step cur w w' :
  world_inv cur w → cursor_step w w' → world_inv cur w'.
Proof.
  intros [Hw Hl] [Hws Hh]. split; [by rewrite Hws|].
  intros s strm Hs Hlk. rewrite Hws.
  destruct Hh as [Hh|(new & Hh & Hnew)]; rewrite Hh in Hs; [by eapply Hl|].
  apply lookup_app_Some in Hs as [Hs|[_ Hs]]; [by eapply Hl|].
  apply list_lookup_singleton_Some in Hs as [_ <-]. congruence.
Qed.

Lemma iter_next_step it reason w :
  test_cursor it →
  cursor_step w (iter_next it reason w).2
  ∧ (∀ value, (iter_next it reason w).1 = Normal (IterValue value) →
       ∃ s, value = stream_object s).
Proof.
  intros [[arr ->]|(n & size & ->)]; simpl.
  - destruct (arr !! array_index w); simpl; (split; [split; by eauto|]);
      intros ? [=]; eauto.
  - unfold generator_loop; simpl.
    repeat case_match; simpl; (split; [split; by eauto|]); intros ? [=]; eauto.
Qed.


Lemma iter_return_step it (f : jsval → World T → completion unit * World T) reason w :
  test_cursor it → iter_return it = Some f → cursor_step w (f reason w).2.
Proof.
  intros [[arr ->]|(n & size & ->)] [= <-]; simpl.
  repeat case_match; simpl; split; by eauto.
Qed.

Lemma iter_throw_step it (f : jsval → World T → completion unit * World T) reason w :
  test_cursor it → iter_throw it = Some f → cursor_step w (f reason w).2.
Proof.
  intros [[arr ->]|(n & size & ->)] [= <-]; simpl.
  repeat case_match; simpl; split; by eauto.
Qed.

(** A method of a handle changes one stream, and not its lock. *)
Lemma world_inv_on_stream cur w j (f : stream T → completion unit * stream T) :
  (∀ strm, locked (f strm).2 = locked strm) →
  world_inv cur w → world_inv cur (on_stream j f w).2.
Proof.
  intros Hf [Hw Hl]. unfold on_stream.
  destruct (attached j w) as [s|]; [|done].
  destruct (heap w !! s) as [strm|] eqn:Hs; [|done].
  specialize (Hf strm). destruct (f strm) as [r strm']; simpl in *.
  split; [done|]. intros s' strm'' Hs' Hlk. simpl in *.
  destruct (decide (s = s')) as [<-|Hne].
  - rewrite list_lookup_insert_eq in Hs' by (by eapply lookup_lt_Some).
    simplify_eq. apply (Hl s strm); congruence.
  - rewrite list_lookup_insert_ne in Hs' by done. by eapply Hl.
Qed.

Lemma filter_is_Some_replicate (m : nat) :
  filter is_Some (replicate m (@None nat)) = [].
Proof.
  induction m as [|m IH]; [done|]. simpl.
  rewrite filter_cons_False; [done|]. by intros [? ?].
Qed.

Lemma live_handles_inv cur w : world_inv cur w → live_handles w ≤ 1.
Proof.
  intros [Hw _]. unfold live_handles. destruct cur as [j|].
  - destruct Hw as [x ->]. rewrite filter_app, filter_is_Some_replicate. simpl.
    destruct (decide (is_Some x)).
    + rewrite filter_cons_True by done. simpl. lia.
    + rewrite filter_cons_False by done. simpl. lia.
  - rewrite Hw. simpl. lia.
Qed.

Lemma live_handles_released w : all_released w → live_handles w = 0.
Proof.
  unfold all_released, live_handles. induction (writers w) as [|x ws IH]; [done|].
  intros [-> Hws]%Forall_cons. rewrite filter_cons_False by (by intros [? ?]).
  by apply IH.
Qed.

Lemma unlocked_released w :
  locks_ok w → all_released w → Forall (λ strm, locked strm = false) (heap w).
Proof.
  intros Hl Hr. apply Forall_lookup. intros s strm Hs.
  destruct (locked strm) eqn:Hlk; [|done].
  destruct (Hl s strm Hs Hlk) as [j Hj].
  unfold all_released in Hr. rewrite Forall_lookup in Hr.
  by specialize (Hr j _ Hj).
Qed.

(** Releasing the handle taken last leaves no handle attached. *)
Lemma world_inv_release j w :
  world_inv (Some j) w →
  world_inv (Some j) (release_lock j w) ∧ writers (release_lock j w) = replicate (S j) None.
Proof.
  intros [[x Hw] Hl]. unfold release_lock, attached. rewrite Hw.
  rewrite writers_lookup_last. destruct x as [s|]; simpl.
  - rewrite insert_middle by position. split; [|by rewrite replicate_snoc].
    split; [by eexists|]. intros s' strm Hs' Hlk. simpl in *.
    destruct (decide (s = s')) as [<-|Hne].
    + rewrite list_lookup_alter_eq in Hs'.
      destruct (heap w !! s) as [strm0|]; simplify_eq/=. by destruct strm0.
    + rewrite list_lookup_alter_ne in Hs' by done.
      destruct (Hl s' strm Hs' Hlk) as [j' Hj']. rewrite Hw in Hj'.
      apply lookup_app_Some in Hj' as [Hj'|[_ Hj']].
      * apply lookup_replicate in Hj' as [? _]. done.
      * apply list_lookup_singleton_Some in Hj' as [_ ?]. congruence.
  - rewrite Hw. split; [|by rewrite replicate_snoc]. split; [by eexists|done].
Qed.

(** Taking a handle while none is attached. *)
Lemma world_inv_get_writer s w (m : nat) :
  writers w = replicate m None → locks_ok w →
  match get_writer_of (T:=T) s w with
  | (Normal wr, w') =>
      wr = writer_object m ∧ world_inv (Some m) w'
      ∧ writers w' = replicate m None ++ [Some s]
  | (Throw _, w') => w' = w
  end.
Proof.
  intros Hw Hl. unfold get_writer_of.
  destruct (heap w !! s) as [strm|] eqn:Hs; [|done].
  destruct (locked strm) eqn:Hlk; [done|].
  rewrite Hw, length_replicate. simpl. split_all; [done| |done].
  split; [by eexists|]. intros s' strm' Hs' Hlk'. simpl in *.
  destruct (decide (s = s')) as [<-|Hne].
  - exists m. by rewrite writers_lookup_last.
  - rewrite list_lookup_insert_ne in Hs' by done.
    destruct (Hl s' strm' Hs' Hlk') as [j' Hj']. rewrite Hw in Hj'.
    apply lookup_replicate in Hj' as [? _]. done.
Qed.


(** The advance keeps the discipline, and when it returns the handle it
    took is the only one attached. *)
Lemma next_inv st reason :
  sink_inv st →
  sink_inv (next reason st).2
  ∧ (∀ wr, (next reason st).1 = Normal wr →
       ∃ j s, wr = writer_object j
         ∧ writers (world (next reason st).2) = replicate j None ++ [Some s]).
Proof.
  destruct st as [[g o i wr0] w tr]. intros [(cur & Hwr & Hinv) Hit]; simpl in *.
  unfold_sink. simpl. destruct i as [it|]; simpl.
  2:{ split; [|done]. split; [by exists cur|done]. }
  destruct (iter_next_step it reason w Hit) as [Hstep Hval].
  destruct (iter_next it reason w) as [r w1]; simpl in *.
  pose proof (world_inv_cursor_step _ _ _ Hinv Hstep) as Hinv1.
  destruct r as [[|value]|e]; simpl.
  1,3: split; [|done]; split; [by exists cur|done].
  destruct (Hval value eq_refl) as [s ->]. simpl.
  destruct cur as [j|]; simpl in Hwr; subst wr0; simpl.
  - destruct (world_inv_release j w1 Hinv1) as [Hinv2 Hws2].
    pose proof (world_inv_get_writer s _ _ Hws2 (proj2 Hinv2)) as Hg.
    destruct (get_writer_of s (release_lock j w1)) as [[wr|e] w3]; simpl.
    + destruct Hg as (-> & Hinv3 & Hws3). split.
      * split; [by exists (Some (S j))|done].
      * intros ? [= <-]. eauto.
    + subst w3. split; [|done]. split; [by exists (Some j)|done].
  - destruct Hinv1 as [Hws1 Hl1].
    pose proof (world_inv_get_writer s w1 0 Hws1 Hl1) as Hg.
    destruct (get_writer_of s w1) as [[wr|e] w3]; simpl.
    + destruct Hg as (-> & Hinv3 & Hws3). split.
      * split; [by exists (Some 0)|done].
      * intros ? [= <-]. eauto.
    + subst w3. split; [|done]. split; [by exists None|done].
Qed.

(** [await w.ready; await w.write(chunk)] on the handle held. *)
Lemma submit_inv st j (chunk : T) :
  sink_inv st → sink_inv (submit (writer_object j) chunk st).2.
Proof.
  destruct st as [[g o i wr0] w tr]. intros [(cur & Hwr & Hinv) Hit]; simpl in *.
  unfold_sink. simpl.
  pose proof (world_inv_on_stream cur w j (λ strm, (stream_ready strm, strm)) (λ _, eq_refl) Hinv)
    as Hinv1.
  destruct (on_stream j _ w) as [[[]|e] w1]; simpl in *.
  - pose proof (world_inv_on_stream cur w1 j (stream_write chunk)
                  (locked_stream_write chunk) Hinv1) as Hinv2.
    destruct (on_stream j _ w1) as [r w2]; simpl in *.
    split; [by exists cur|done].
  - split; [by exists cur|done].
Qed.

Lemma sink_write_inv st (chunk : T) : sink_inv st → sink_inv (sink_write chunk st).2.
Proof.
  intros Hst. unfold sink_write, get_writer, try_catch, mbind, M_bind, bind.
  destruct (writer (this st)) as [wr|] eqn:Hwr; [|done].
  assert (∃ j, wr = writer_object j) as [j ->].
  { destruct Hst as [(cur & Hcur & _) _]. rewrite Hwr in Hcur.
    destruct cur; simplify_eq/=. eauto. }
  pose proof (submit_inv st j chunk Hst) as Hst1.
  destruct (submit (writer_object j) chunk st) as [[[]|e] st1]; simpl in *; [done|].
  destruct (next_inv st1 e Hst1) as [Hst2 Hwr2].
  destruct (next e st1) as [[wr2|e2] st2]; simpl in *; [|done].
  destruct (Hwr2 wr2 eq_refl) as (j2 & s2 & -> & _).
  by apply submit_inv.
Qed.


Lemma all_released_replicate w (m : nat) :
  writers w = replicate m None → all_released w.
Proof. intros Hw. unfold all_released. rewrite Hw. by apply Forall_replicate. Qed.

(** [close()] keeps the discipline; when it returns, no handle is
    attached. *)
Lemma sink_close_inv st :
  sink_inv st →
  sink_inv (sink_close st).2
  ∧ ((sink_close st).1 = Normal () → all_released (world (sink_close st).2)).
Proof.
  destruct st as [[g o i wr0] w tr]. intros [(cur & Hwr & Hinv) Hit]; simpl in *.
  unfold_sink. simpl.
  assert (∃ r1 w1 tr1,
    match i with
    | Some a =>
        match iter_return a with
        | Some f => invoke EvIterReturn (f JSUndefined)
        | None => λ st, (Normal (), st)
        end
    | None => λ st, (Normal (), st)
    end {| this := {| gen := g; options := o; iter := i; writer := wr0 |};
           world := w; trace := tr |}
    = (r1, {| this := {| gen := g; options := o; iter := i; writer := wr0 |};
              world := w1; trace := tr1 |})
    ∧ world_inv cur w1) as (r1 & w1 & tr1 & Hsig & Hinv1).
  { destruct i as [it|]; [|by eauto].
    destruct (iter_return it) as [f|] eqn:Hf; [|by eauto].
    pose proof (iter_return_step it f JSUndefined w Hit Hf) as Hstep.
    unfold invoke; simpl. destruct (f JSUndefined w) as [r1 w1]; simpl in *.
    do 3 eexists. split; [done|]. by eapply world_inv_cursor_step. }
  unfold invoke in *. rewrite Hsig. clear Hsig.
  destruct r1 as [[]|e]; simpl.
  2:{ split; [|done]. split; [by exists cur|done]. }
  destruct (negb (truthy _)); simpl;
    (destruct cur as [j|]; simpl in Hwr; subst wr0; simpl;
     [|split; [split; [by exists None|done]|];
       intros _; unfold all_released; destruct Hinv1 as [-> _]; done]).
  - pose proof (world_inv_on_stream _ w1 j stream_close locked_stream_close Hinv1)
      as Hinv2.
    destruct (on_stream j stream_close w1) as [[[]|e] w2]; simpl in *.
    2:{ split; [|done]. split; [by exists (Some j)|done]. }
    destruct (world_inv_release j w2 Hinv2) as [Hinv3 Hws3]. split.
    + split; [by exists (Some j)|done].
    + intros _. by eapply all_released_replicate.
  - destruct (world_inv_release j w1 Hinv1) as [Hinv3 Hws3]. split.
    + split; [by exists (Some j)|done].
    + intros _. by eapply all_released_replicate.
Qed.

(** [abort(reason)] keeps the discipline; when it returns, no handle is
    attached. *)
Lemma sink_abort_inv st reason :
  sink_inv st →
  sink_inv (sink_abort reason st).2
  ∧ ((sink_abort reason st).1 = Normal () → all_released (world (sink_abort reason st).2)).
Proof.
  destruct st as [[g o i wr0] w tr]. intros [(cur & Hwr & Hinv) Hit]; simpl in *.
  unfold_sink. simpl.
  assert (∃ r1 w1 tr1,
    match i with
    | Some a =>
        match iter_throw a with
        | Some f => invoke (EvIterThrow reason) (f reason)
        | None => λ st, (Normal (), st)
        end
    | None => λ st, (Normal (), st)
    end {| this := {| gen := g; options := o; iter := i; writer := wr0 |};
           world := w; trace := tr |}
    = (r1, {| this := {| gen := g; options := o; iter := i; writer := wr0 |};
              world := w1; trace := tr1 |})
    ∧ world_inv cur w1) as (r1 & w1 & tr1 & Hsig & Hinv1).
  { destruct i as [it|]; [|by eauto].
    destruct (iter_throw it) as [f|] eqn:Hf; [|by eauto].
    pose proof (iter_throw_step it f reason w Hit Hf) as Hstep.
    unfold invoke; simpl. destruct (f reason w) as [r1 w1]; simpl in *.
    do 3 eexists. split; [done|]. by eapply world_inv_cursor_step. }
  unfold invoke in *. rewrite Hsig. clear Hsig.
  destruct r1 as [[]|e]; simpl;
  (destruct (negb (truthy _)); simpl;
    (destruct cur as [j|]; simpl in Hwr; subst wr0; simpl;
     [|split; [split; [by exists None|done]|];
       intros _; unfold all_released; destruct Hinv1 as [-> _]; done]);
  [ pose proof (world_inv_on_stream _ w1 j (stream_abort reason)
                  (locked_stream_abort reason) Hinv1) as Hinv2;
    destruct (on_stream j (stream_abort reason) w1) as [[[]|e'] w2]; simpl in *;
    [ destruct (world_inv_release j w2 Hinv2) as [Hinv3 Hws3]; split;
      [ split; [by exists (Some j)|done]
      | intros _; by eapply all_released_replicate ]
    | split; [|done]; split; [by exists (Some j)|done] ]
  | destruct (world_inv_release j w1 Hinv1) as [Hinv3 Hws3]; split;
    [ split; [by exists (Some j)|done]
    | intros _; by eapply all_released_replicate ] ]).
Qed.


Lemma start_inv (g : Supply (World T) T) (o : option ConcatSinkOptions) w :
  test_supply g → writers w = [] →
  Forall (λ strm, locked strm = false) (heap w) →
  sink_inv (start (initial g o w)).2.
Proof.
  intros Hg Hw Hh.
  assert (Hl : locks_ok w).
  { intros s strm Hs Hlk. rewrite Forall_lookup in Hh.
    specialize (Hh s strm Hs). congruence. }
  unfold start, initial, Sink.constructor, get_gen, set_iter, invoke, mbind, M_bind, bind.
  destruct Hg as [[arr ->]|(n & size & ->)]; simpl.
  - pose proof (next_inv
      {| this := {| gen := array_supply arr; options := o;
                    iter := Some (array_iterator arr); writer := None |};
         world := set_array_index 0 w; trace := [EvIterator] |} JSUndefined) as [Hinv _].
    { split; [by exists None|]. left. by eexists. }
    by destruct (next _ _) as [[?|?] ?].
  - pose proof (next_inv
      {| this := {| gen := generator_supply n size; options := o;
                    iter := Some (generator_object n size); writer := None |};
         world := set_generator SuspendedStart w; trace := [EvIterator] |} JSUndefined)
      as [Hinv _].
    { split; [by exists None|]. right. by do 2 eexists. }
    by destruct (next _ _) as [[?|?] ?].
Qed.

Lemma after_inv (ops : list (operation (T:=T))) st :
  sink_inv st → sink_inv (after ops st).
Proof.
  revert st. induction ops as [|op ops IH]; intros st Hst; [done|].
  simpl. apply IH. destruct op; simpl.
  - by apply sink_write_inv.
  - by apply sink_close_inv.
  - by apply sink_abort_inv.
Qed.

Lemma live_handles_last (j s : nat) w :
  writers w = replicate j None ++ [Some s] → live_handles w = 1.
Proof.
  intros Hw. unfold live_handles.
  by rewrite Hw, filter_app, filter_is_Some_replicate.
Qed.

(** On the platform, an advance finds no stream locked by the sink
    itself: when the cursor yields a stream there is, the advance takes
    the handle, even on the stream it held until then. *)
Lemma next_takes st it reason (value : WritableStream (World T) T) w1 :
  sink_inv st →
  iter (this st) = Some it →
  iter_next it reason (world st) = (Normal (IterValue value), w1) →
  is_Some (heap w1 !! stream_id value) →
  is_normal (next reason st).1 = true.
Proof.
  intros [(cur & Hwr & Hinv) Hit] Hi Hn Hs. rewrite Hi in Hit.
  rewrite (next_outcome st it reason _ w1 Hi Hn).
  destruct (iter_next_step it reason (world st) Hit) as [Hstep Hval].
  rewrite Hn in Hstep, Hval. simpl in Hstep, Hval.
  destruct (Hval value eq_refl) as [s ->]. simpl in *.
  pose proof (world_inv_cursor_step _ _ _ Hinv Hstep) as Hinv1.
  rewrite Hwr.
  assert (Hrel : ∃ wrel,
            match writer_object (T:=T) <$> cur with
            | Some wr => releaseLock wr w1
            | None => w1
            end = wrel
            ∧ locks_ok wrel ∧ all_released wrel
            ∧ length (heap wrel) = length (heap w1)).
  { destruct cur as [j|]; simpl.
    - destruct (world_inv_release j w1 Hinv1) as [[_ Hl] Hws].
      eexists. split; [reflexivity|]. split; [done|].
      split; [by eapply all_released_replicate|].
      unfold release_lock. destruct (attached j w1); [|done].
      simpl. by rewrite length_alter.
    - destruct Hinv1 as [Hws Hl]. exists w1. split_all; try done.
      unfold all_released. by rewrite Hws. }
  destruct Hrel as (wrel & -> & Hl & Hr & Hlen).
  pose proof (unlocked_released wrel Hl Hr) as Hu.
  unfold get_writer_of.
  destruct (heap wrel !! s) as [strm|] eqn:Hstrm.
  - rewrite Forall_lookup in Hu. by rewrite (Hu s strm Hstrm).
  - apply lookup_ge_None in Hstrm. destruct Hs as [strm Hs].
    apply lookup_lt_Some in Hs. lia.
Qed.



(** ** Terminating twice *)

Lemma attached_release_lock j w : attached j (release_lock j w) = None.
Proof.
  unfold release_lock. destruct (attached j w) as [s|] eqn:Hj; [|done].
  unfold attached in *; simpl.
  destruct (writers w !! j) as [x|] eqn:Hx; [|done].
  by rewrite list_lookup_insert_eq by (by eapply lookup_lt_Some).
Qed.

Lemma release_lock_twice j w : release_lock j (release_lock j w) = release_lock j w.
Proof. unfold release_lock at 1. by rewrite attached_release_lock. Qed.

Lemma generator_release_lock j w : generator (release_lock j w) = generator w.
Proof. unfold release_lock. by destruct (attached j w). Qed.

(** [close()] with [preventClose] set, on the cursors of the test file:
    it returns, and afterwards the cursor's completion signal and the
    release of the handle do nothing any more. *)
Lemma sink_close_prevented st :
  sink_inv st →
  truthy (options (this st) ≫= preventClose) = true →
  ∃ w1 tr1,
    sink_close st = (Normal (), {| this := this st; world := w1; trace := tr1 |})
    ∧ (∀ it f, iter (this st) = Some it → iter_return it = Some f →
         f JSUndefined w1 = (Normal (), w1))
    ∧ (∀ wr, writer (this st) = Some wr → releaseLock wr w1 = w1).
Proof.
  destruct st as [[g o i wr0] w tr]. intros [(cur & Hwr & Hinv) Hit] Hp; simpl in *.
  unfold_sink. unfold mbind in *. simpl.
  destruct i as [it|]; [destruct Hit as [[arr ->]|(n & size & ->)]|]; simpl;
    try destruct (generator w) eqn:Hgen; simpl;
    rewrite Hp; simpl;
    destruct cur as [j|]; simpl in Hwr; subst wr0; simpl;
    do 2 eexists; (split; [reflexivity|]); simpl;
    (split; [intros ?? [= <-] [= <-]|intros ? [= <-]; simpl]);
    try (by rewrite release_lock_twice);
    try done;
    rewrite ?generator_release_lock; simpl; by rewrite ?Hgen.
Qed.

(** [abort(reason)] with [preventAbort] set, likewise. *)
Lemma sink_abort_prevented st reason :
  sink_inv st →
  truthy (options (this st) ≫= preventAbort) = true →
  ∃ w1 tr1,
    sink_abort reason st = (Normal (), {| this := this st; world := w1; trace := tr1 |})
    ∧ (∀ it f reason', iter (this st) = Some it → iter_throw it = Some f →
         (f reason' w1).2 = w1)
    ∧ (∀ wr, writer (this st) = Some wr → releaseLock wr w1 = w1).
Proof.
  destruct st as [[g o i wr0] w tr]. intros [(cur & Hwr & Hinv) Hit] Hp; simpl in *.
  unfold_sink. unfold mbind in *. simpl.
  destruct i as [it|]; [destruct Hit as [[arr ->]|(n & size & ->)]|]; simpl;
    try destruct (generator w) eqn:Hgen; simpl;
    rewrite Hp; simpl;
    destruct cur as [j|]; simpl in Hwr; subst wr0; simpl;
    do 2 eexists; (split; [reflexivity|]); simpl;
    (split; [intros ??? [= <-] [= <-]|intros ? [= <-]; simpl]);
    try (by rewrite release_lock_twice);
    try done;
    rewrite ?generator_release_lock; simpl; by rewrite ?Hgen.
Qed.

End HandleDiscipline.

Section Idempotence.
Context {W T : Type}.
Implicit Types (st : state W T).

(** When the cursor's completion signal and the release of the handle
    do nothing, neither does a [close()] that forwards nothing. *)
Lemma sink_close_noop st :
  truthy (options (this st) ≫= preventClose) = true →
  (∀ it f, iter (this st) = Some it → iter_return it = Some f →
     f JSUndefined (world st) = (Normal (), world st)) →
  (∀ wr, writer (this st) = Some wr → releaseLock wr (world st) = world st) →
  ∃ tr, sink_close st = (Normal (), {| this := this st; world := world st; trace := tr |}).
Proof.
  destruct st as [[g o i wr0] w tr]. simpl. intros Hp Hsig Hrel.
  unfold_sink. unfold mbind in *. simpl.
  destruct i as [it|]; [destruct (iter_return it) as [f|] eqn:Hf|]; simpl;
    rewrite ?(Hsig it f eq_refl Hf); simpl;
    rewrite Hp; simpl;
    (destruct wr0 as [wr|]; simpl; [rewrite (Hrel wr eq_refl)|]); by eexists.
Qed.

Lemma sink_abort_noop st reason :
  truthy (options (this st) ≫= preventAbort) = true →
  (∀ it f, iter (this st) = Some it → iter_throw it = Some f →
     (f reason (world st)).2 = world st) →
  (∀ wr, writer (this st) = Some wr → releaseLock wr (world st) = world st) →
  ∃ tr, sink_abort reason st = (Normal (), {| this := this st; world := world st; trace := tr |}).
Proof.
  destruct st as [[g o i wr0] w tr]. simpl. intros Hp Hsig Hrel.
  unfold_sink. unfold mbind in *. simpl.
  destruct i as [it|]; [destruct (iter_throw it) as [f|] eqn:Hf|]; simpl;
    try (specialize (Hsig it f eq_refl Hf);
         destruct (f reason w) as [[[]|?] w1]; simpl in *; subst w1);
    rewrite Hp; simpl;
    (destruct wr0 as [wr|]; simpl; [rewrite (Hrel wr eq_refl)|]); by eexists.
Qed.

(** With forwarding suppressed, [close()] raises what the cursor's
    completion signal raises and nothing else, and neither closes nor
    aborts the consumer. *)
Lemma sink_close_suppressed st :
  truthy (options (this st) ≫= preventClose) = true →
  (sink_close st).1
  = match iter (this st) ≫= iter_return with
    | Some f => (f JSUndefined (world st)).1
    | None => Normal ()
    end
  ∧ Forall (λ ev, is_finalize ev = false) (new_events st (sink_close st).2).
Proof.
  destruct st as [[g o i wr0] w tr]. simpl. intros Hp.
  unfold_sink. unfold mbind in *. simpl.
  destruct i as [it|]; simpl; [destruct (iter_return it) as [f|]|]; simpl;
    try (destruct (f JSUndefined w) as [[[]|e] w1]; simpl);
    rewrite ?Hp; simpl;
    destruct wr0 as [wr|]; simpl;
    rewrite <- ?app_assoc, ?drop_app_length, ?drop_all;
    (split; [done|]); by repeat constructor.
Qed.

(** With forwarding suppressed, [abort(reason)] always returns, and
    neither closes nor aborts the consumer. *)
Lemma sink_abort_suppressed st reason :
  truthy (options (this st) ≫= preventAbort) = true →
  (sink_abort reason st).1 = Normal ()
  ∧ Forall (λ ev, is_finalize ev = false) (new_events st (sink_abort reason st).2).
Proof.
  destruct st as [[g o i wr0] w tr]. simpl. intros Hp.
  unfold_sink. unfold mbind in *. simpl.
  destruct i as [it|]; simpl; [destruct (iter_throw it) as [f|]|]; simpl;
    try (destruct (f reason w) as [[[]|e] w1]; simpl);
    rewrite ?Hp; simpl;
    destruct wr0 as [wr|]; simpl;
    rewrite <- ?app_assoc, ?drop_app_length, ?drop_all;
    (split; [done|]); by repeat constructor.
Qed.

End Idempotence.

Section Termination.
Context {T : Type}.

(** C9 (as amended). The sink keeps no closed or aborted flag: a
    repeated call makes the same calls again.  For arbitrary
    collaborators, with forwarding suppressed the consumer is neither
    closed nor aborted: [close()] with [preventClose] set returns or throws as the
    cursor's completion signal does, [abort(reason)] with [preventAbort]
    set always returns; and when the cursor's signal and the release of
    the handle do nothing any more, the call returns and changes
    nothing.  That is so on the platform with the supplies of the test
    file: on a sink that was closed with [preventClose] set, [close()]
    again returns and changes nothing; on a sink that was aborted with
    [preventAbort] set, [abort(reason)] again returns and changes
    nothing. *)
Theorem repeated_termination :
  (∀ (W : Type) (st : state W T),
     truthy (options (this st) ≫= preventClose) = true →
     (sink_close st).1
     = match iter (this st) ≫= iter_return with
       | Some f => (f JSUndefined (world st)).1
       | None => Normal ()
       end
     ∧ Forall (λ ev, is_finalize ev = false) (new_events st (sink_close st).2)
     ∧ ((∀ it f, iter (this st) = Some it → iter_return it = Some f →
           f JSUndefined (world st) = (Normal (), world st)) →
        (∀ wr, writer (this st) = Some wr → releaseLock wr (world st) = world st) →
        ∃ tr, sink_close st
              = (Normal (), {| this := this st; world := world st; trace := tr |})))
  ∧ (∀ (W : Type) (st : state W T) reason,
       truthy (options (this st) ≫= preventAbort) = true →
       (sink_abort reason st).1 = Normal ()
       ∧ Forall (λ ev, is_finalize ev = false) (new_events st (sink_abort reason st).2)
       ∧ ((∀ it f, iter (this st) = Some it → iter_throw it = Some f →
             (f reason (world st)).2 = world st) →
          (∀ wr, writer (this st) = Some wr → releaseLock wr (world st) = world st) →
          ∃ tr, sink_abort reason st
                = (Normal (), {| this := this st; world := world st; trace := tr |})))
  ∧ (∀ (g : Supply (World T) T) (o : option ConcatSinkOptions)
       (w : World T) (ops : list operation),
  test_supply g →
  writers w = [] →
  Forall (λ strm, locked strm = false) (heap w) →
  let st := after ops (start (initial g o w)).2 in
  (truthy (options (this st) ≫= preventClose) = true →
   ∃ st1 st2, sink_close st = (Normal (), st1)
     ∧ sink_close st1 = (Normal (), st2)
     ∧ world st2 = world st1)
  ∧ (truthy (options (this st) ≫= preventAbort) = true →
     ∀ reason reason',
     ∃ st1 st2, sink_abort reason st = (Normal (), st1)
       ∧ sink_abort reason' st1 = (Normal (), st2)
       ∧ world st2 = world st1)).
Proof.
  split; [|split].
  { intros W st Hp. destruct (sink_close_suppressed st Hp) as [Hout Hev].
    split_all; try done. intros Hsig Hrel. by apply sink_close_noop. }
  { intros W st reason Hp. destruct (sink_abort_suppressed st reason Hp) as [Hout Hev].
    split_all; try done. intros Hsig Hrel. by apply sink_abort_noop. }
  intros g o w ops.
  intros Hg Hw Hh st.
  assert (Hst : sink_inv st) by (by apply after_inv, start_inv).
  split.
  - intros Hp.
    destruct (sink_close_prevented st Hst Hp) as (w1 & tr1 & Hc & Hsig & Hrel).
    destruct (sink_close_noop {| this := this st; world := w1; trace := tr1 |})
      as [tr2 Hc2]; [done..|].
    do 2 eexists. split; [exact Hc|]. split; [exact Hc2|done].
  - intros Hp reason reason'.
    destruct (sink_abort_prevented st reason Hst Hp) as (w1 & tr1 & Hc & Hsig & Hrel).
    destruct (sink_abort_noop {| this := this st; world := w1; trace := tr1 |} reason')
      as [tr2 Hc2]; [done|simpl; by eauto|done|].
    do 2 eexists. split; [exact Hc|]. split; [exact Hc2|done].
Qed.

End Termination.

(** * The claims at concrete pipes *)

Section Concrete.
Import Examples Scenes.





(** Evaluates both sides of a closed equation. *)
Ltac by_evaluation := vm_compute; reflexivity.

(** C3 at a sink whose first consumer is full. *)
Lemma write_retries_once_witness :
  ∃ st', sink_write 11 first_full = (Normal (), st')
    ∧ new_events first_full st' =
        [EvReady 0; EvWrite 0 11; EvIterNext (ExceededChunkLimit 1);
         EvReleaseLock 0; EvGetWriter 1; EvReady 1; EvWrite 1 11]
    ∧ advances (new_events first_full st') = 1
    ∧ writer (this st') = Some (writer_object 1).
Proof.
  pose (it := array_iterator (T:=nat) [0; 1]).
  pose (w := writer_object (T:=nat) 0).
  pose (w' := writer_object (T:=nat) 1).
  pose (e := ExceededChunkLimit 1).
  pose (w1 := (ready w (world first_full)).2).
  pose (w2 := (write w 11 w1).2).
  pose (w3 := (iter_next it e w2).2).
  pose (w4 := (getWriter (stream_object 1) (releaseLock w w3)).2).
  pose (w5 := (ready w' w4).2).
  pose (w6 := (write w' 11 w5).2).
  assert (H1 : iter (this first_full) = Some it) by by_evaluation.
  assert (H2 : writer (this first_full) = Some w) by by_evaluation.
  assert (H3 : ready w (world first_full) = (Normal (), w1)) by by_evaluation.
  assert (H4 : write w 11 w1 = (Throw e, w2)) by by_evaluation.
  assert (H5 : iter_next it e w2 = (Normal (IterValue (stream_object 1)), w3))
    by by_evaluation.
  assert (H6 : getWriter (stream_object 1) (releaseLock w w3) = (Normal w', w4))
    by by_evaluation.
  assert (H7 : ready w' w4 = (Normal (), w5)) by by_evaluation.
  assert (H8 : write w' 11 w5 = (Normal (), w6)) by by_evaluation.
  destruct (write_retries_once first_full it w 11 e w1 w2 H1 H2 H3 H4)
    as [[Hadv _] Hretry].
  destruct (Hretry (stream_object 1) w' w3 w4 w5 w6 (Normal ()) (Normal ()) H5 H6 H7 H8)
    as (st' & Hw & Htr & Hwr & _).
  exists st'. split; [exact Hw|]. split; [exact Htr|]. split; [|exact Hwr].
  rewrite Hw in Hadv. exact Hadv.
Defined.

(** C10 at a sink whose current consumer is errored: its [ready]
    rejects with the stored error. *)
Lemma ready_rejection_advances_witness :
  ∃ st', sink_write 11 second_errored = (Normal (), st')
    ∧ new_events second_errored st' =
        [EvReady 1; EvIterNext (ExceededChunkLimit 0);
         EvReleaseLock 1; EvGetWriter 2; EvReady 2; EvWrite 2 11]
    ∧ advances (new_events second_errored st') = 1
    ∧ writer (this st') = Some (writer_object 2).
Proof.
  pose (it := array_iterator (T:=nat) [0; 1; 2]).
  pose (w := writer_object (T:=nat) 1).
  pose (w' := writer_object (T:=nat) 2).
  pose (e := ExceededChunkLimit 0).
  pose (w1 := (ready w (world second_errored)).2).
  pose (w2 := (iter_next it e w1).2).
  pose (w3 := (getWriter (stream_object 2) (releaseLock w w2)).2).
  pose (w4 := (ready w' w3).2).
  pose (w5 := (write w' 11 w4).2).
  assert (H1 : iter (this second_errored) = Some it) by by_evaluation.
  assert (H2 : writer (this second_errored) = Some w) by by_evaluation.
  assert (H3 : ready w (world second_errored) = (Throw e, w1)) by by_evaluation.
  assert (H5 : iter_next it e w1 = (Normal (IterValue (stream_object 2)), w2))
    by by_evaluation.
  assert (H6 : getWriter (stream_object 2) (releaseLock w w2) = (Normal w', w3))
    by by_evaluation.
  assert (H7 : ready w' w3 = (Normal (), w4)) by by_evaluation.
  assert (H8 : write w' 11 w4 = (Normal (), w5)) by by_evaluation.
  destruct (ready_rejection_advances second_errored it w 11 e w1 H1 H2 H3)
    as [[Hadv _] Hretry].
  destruct (Hretry (stream_object 2) w' w2 w3 w4 w5 (Normal ()) (Normal ()) H5 H6 H7 H8)
    as (st' & Hw & Htr & Hwr & _).
  exists st'. split; [exact Hw|]. split; [exact Htr|]. split; [|exact Hwr].
  rewrite Hw in Hadv. exact Hadv.
Defined.

(** C5 (as amended) at a sink whose first consumer is full: with a
    second consumer to go to, and with none. *)
Lemma advance_pulls_then_releases_witness :
  (∃ st', next (JSValue 0) first_full = (Normal (writer_object 1), st')
     ∧ new_events first_full st' =
         [EvIterNext (JSValue 0); EvReleaseLock 0; EvGetWriter 1]
     ∧ released_then_pulled (new_events first_full st') = false)
  ∧ (let st := (sink_write 10 (started [1])).2 in
     new_events st (next (JSValue 0) st).2 = [EvIterNext (JSValue 0)]
     ∧ (next (JSValue 0) st).1 = Throw SupplyExhausted
     ∧ attached 0 (world (next (JSValue 0) st).2) = Some 0).
Proof.
  split.
  - pose (it := array_iterator (T:=nat) [0; 1]).
    pose (w := writer_object (T:=nat) 0).
    pose (w' := writer_object (T:=nat) 1).
    pose (w1 := (iter_next it (JSValue 0) (world first_full)).2).
    pose (w2 := (getWriter (stream_object 1) (releaseLock w w1)).2).
    assert (H1 : iter (this first_full) = Some it) by by_evaluation.
    assert (H2 : writer (this first_full) = Some w) by by_evaluation.
    assert (H3 : iter_next it (JSValue 0) (world first_full)
                 = (Normal (IterValue (stream_object 1)), w1)) by by_evaluation.
    assert (H4 : getWriter (stream_object 1) (releaseLock w w1) = (Normal w', w2))
      by by_evaluation.
    destruct (advance_pulls_then_releases first_full it w (JSValue 0)
                (Normal (IterValue (stream_object 1))) w1 H1 H2 H3) as (_ & _ & Hyield).
    destruct (Hyield (stream_object 1) (Normal w') w2 eq_refl H4)
      as (st' & Hn & Htr & Hord & _).
    exists st'. split; [exact Hn|]. split; [exact Htr|exact Hord].
  - intros st.
    pose (it := array_iterator (T:=nat) [0]).
    pose (w := writer_object (T:=nat) 0).
    pose (w1 := (iter_next it (JSValue 0) (world st)).2).
    assert (H1 : iter (this st) = Some it) by by_evaluation.
    assert (H2 : writer (this st) = Some w) by by_evaluation.
    assert (H3 : iter_next it (JSValue 0) (world st) = (Normal IterDone, w1))
      by by_evaluation.
    assert (H4 : ∀ value : WritableStream (World nat) nat,
              Normal (IterDone (W:=World nat) (T:=nat)) ≠ Normal (IterValue value))
      by (intros value; discriminate).
    destruct (advance_pulls_then_releases st it w (JSValue 0) (Normal IterDone) w1
                H1 H2 H3) as (_ & Hend & _).
    destruct (Hend H4) as [Hn Htr].
    split; [exact Htr|]. rewrite Hn. split; [reflexivity|]. by_evaluation.
Defined.

(** C5 as stated fails: the advance pulls from the cursor before it
    releases the handle it holds.  With the generator of the test file
    the cleanup of the consumer left behind has run after the pull
    alone, while the handle on that consumer is still attached. *)
Lemma advance_does_not_release_first :
  let st := generated 2 5 None in
  let st' := (next (JSValue 0) st).2 in
  let pulled := (iter_next (generator_object 2 5) (JSValue 0) (world st)).2 in
  new_events st st' = [EvIterNext (JSValue 0); EvReleaseLock 0; EvGetWriter 1]
  ∧ released_then_pulled (new_events st st') = false
  ∧ cnt (world st) = 0
  ∧ cnt pulled = 1
  ∧ attached 0 pulled = Some 0
  ∧ locked <$> heap pulled = [true; false].
Proof. intros st st' pulled. subst st st' pulled. split_all; by_evaluation. Qed.

(** C6 at a sink over the generator, with the default options and with
    [preventClose] set, and at a sink over an array, whose cursor has
    no [return]. *)
Lemma close_order_witness :
  (∃ st', sink_close (generated 1 5 None) = (Normal (), st')
     ∧ new_events (generated 1 5 None) st' = [EvIterReturn; EvClose 0; EvReleaseLock 0])
  ∧ (let st := generated 1 5 (Some {| preventAbort := None; preventClose := Some true |}) in
     ∃ st', sink_close st = (Normal (), st')
       ∧ new_events st st' = [EvIterReturn; EvReleaseLock 0])
  ∧ (∃ st', sink_close (started [1; 1]) = (Normal (), st')
       ∧ new_events (started [1; 1]) st' = [EvClose 0; EvReleaseLock 0]).
Proof.
  pose (it := generator_object (T:=nat) 1 5).
  pose (w := writer_object (T:=nat) 0).
  pose (f := default (λ _ x, (Normal (), x)) (iter_return it)).
  split; [|split].
  - pose (st := generated 1 5 None).
    pose (w1 := (f JSUndefined (world st)).2).
    pose (w2 := (close w w1).2).
    assert (H2 : iter (this st) ≫= iter_return = Some f) by by_evaluation.
    assert (H3 : writer (this st) = Some w) by by_evaluation.
    assert (H4 : f JSUndefined (world st) = (Normal (), w1)) by by_evaluation.
    assert (H5 : truthy (options (this st) ≫= preventClose) = false) by by_evaluation.
    assert (H6 : close w w1 = (Normal (), w2)) by by_evaluation.
    destruct (proj1 (close_order st (Some f) w1 H2 H4) w H3) as [Hfwd _].
    destruct (Hfwd H5 w2 H6) as (st' & Hc & Htr & _).
    exists st'. split; [exact Hc|exact Htr].
  - pose (st := generated 1 5 (Some {| preventAbort := None; preventClose := Some true |})).
    pose (w1 := (f JSUndefined (world st)).2).
    assert (H2 : iter (this st) ≫= iter_return = Some f) by by_evaluation.
    assert (H3 : writer (this st) = Some w) by by_evaluation.
    assert (H4 : f JSUndefined (world st) = (Normal (), w1)) by by_evaluation.
    assert (H5 : truthy (options (this st) ≫= preventClose) = true) by by_evaluation.
    destruct (proj1 (close_order st (Some f) w1 H2 H4) w H3) as [_ Hprev].
    destruct (Hprev H5) as (st' & Hc & Htr & _).
    exists st'. split; [exact Hc|exact Htr].
  - pose (st := started [1; 1]).
    pose (w2 := (close w (world st)).2).
    assert (H2 : iter (this st) ≫= iter_return = None) by by_evaluation.
    assert (H3 : writer (this st) = Some w) by by_evaluation.
    assert (H5 : truthy (options (this st) ≫= preventClose) = false) by by_evaluation.
    assert (H6 : close w (world st) = (Normal (), w2)) by by_evaluation.
    destruct (proj1 (close_order st None (world st) H2 eq_refl) w H3) as [Hfwd _].
    destruct (Hfwd H5 w2 H6) as (st' & Hc & Htr & _).
    exists st'. split; [exact Hc|exact Htr].
Defined.

(** C7 at a sink over the generator, whose [throw] rethrows the reason,
    with the default options and with [preventAbort] set, and at a sink
    over an array, whose cursor has no [throw]. *)
Lemma abort_order_witness :
  (∃ st', sink_abort (JSValue 7) (generated 1 5 None) = (Normal (), st')
     ∧ new_events (generated 1 5 None) st'
       = [EvIterThrow (JSValue 7); EvAbort 0 (JSValue 7); EvReleaseLock 0])
  ∧ (let st := generated 1 5 (Some {| preventAbort := Some true; preventClose := None |}) in
     ∃ st', sink_abort (JSValue 7) st = (Normal (), st')
       ∧ new_events st st' = [EvIterThrow (JSValue 7); EvReleaseLock 0])
  ∧ (∃ st', sink_abort (JSValue 7) (started [1; 1]) = (Normal (), st')
       ∧ new_events (started [1; 1]) st' = [EvAbort 0 (JSValue 7); EvReleaseLock 0]).
Proof.
  pose (it := generator_object (T:=nat) 1 5).
  pose (w := writer_object (T:=nat) 0).
  pose (f := default (λ _ x, (Normal (), x)) (iter_throw it)).
  pose (reason := JSValue 7).
  split; [|split].
  - pose (st := generated 1 5 None).
    pose (w1 := (f reason (world st)).2).
    pose (w2 := (abort w reason w1).2).
    assert (H2 : iter (this st) ≫= iter_throw = Some f) by by_evaluation.
    assert (H3 : writer (this st) = Some w) by by_evaluation.
    assert (H4 : f reason (world st) = (Throw reason, w1)) by by_evaluation.
    assert (H5 : truthy (options (this st) ≫= preventAbort) = false) by by_evaluation.
    assert (H6 : abort w reason w1 = (Normal (), w2)) by by_evaluation.
    destruct (proj1 (abort_order st reason (Some f) (Throw reason) w1 H2 H4) w H3)
      as [Hfwd _].
    destruct (Hfwd H5 w2 H6) as (st' & Hc & Htr & _).
    exists st'. split; [exact Hc|exact Htr].
  - pose (st := generated 1 5 (Some {| preventAbort := Some true; preventClose := None |})).
    pose (w1 := (f reason (world st)).2).
    assert (H2 : iter (this st) ≫= iter_throw = Some f) by by_evaluation.
    assert (H3 : writer (this st) = Some w) by by_evaluation.
    assert (H4 : f reason (world st) = (Throw reason, w1)) by by_evaluation.
    assert (H5 : truthy (options (this st) ≫= preventAbort) = true) by by_evaluation.
    destruct (proj1 (abort_order st reason (Some f) (Throw reason) w1 H2 H4) w H3)
      as [_ Hprev].
    destruct (Hprev H5) as (st' & Hc & Htr & _).
    exists st'. split; [exact Hc|exact Htr].
  - pose (st := started [1; 1]).
    pose (w2 := (abort w reason (world st)).2).
    assert (H2 : iter (this st) ≫= iter_throw = None) by by_evaluation.
    assert (H3 : writer (this st) = Some w) by by_evaluation.
    assert (H5 : truthy (options (this st) ≫= preventAbort) = false) by by_evaluation.
    assert (H6 : abort w reason (world st) = (Normal (), w2)) by by_evaluation.
    destruct (proj1 (abort_order st reason None (Normal ()) (world st) H2 eq_refl) w H3)
      as [Hfwd _].
    destruct (Hfwd H5 w2 H6) as (st' & Hc & Htr & _).
    exists st'. split; [exact Hc|exact Htr].
Defined.




(** C9 (as amended) at a sink over the generator with both options set. *)
Lemma repeated_termination_witness :
  let o := Some {| preventAbort := Some true; preventClose := Some true |} in
  let st := after [OpWrite 10] (start (initial (generator_supply 1 5) o (world_of []))).2 in
  (∃ st1 st2, sink_close st = (Normal (), st1)
     ∧ sink_close st1 = (Normal (), st2) ∧ world st2 = world st1)
  ∧ (∃ st1 st2, sink_abort (JSValue 1) st = (Normal (), st1)
       ∧ sink_abort (JSValue 2) st1 = (Normal (), st2) ∧ world st2 = world st1)
  ∧ Forall (λ ev, is_finalize ev = false) (new_events st (sink_close st).2).
Proof.
  intros o st.
  assert (Hg : test_supply (T:=nat) (generator_supply 1 5)) by (right; by do 2 eexists).
  assert (Hw : writers (world_of (T:=nat) []) = []) by reflexivity.
  assert (Hh : Forall (λ strm : stream nat, locked strm = false) (heap (world_of [])))
    by constructor.
  assert (Hc : truthy (options (this st) ≫= preventClose) = true) by by_evaluation.
  assert (Ha : truthy (options (this st) ≫= preventAbort) = true) by by_evaluation.
  destruct (repeated_termination (T:=nat)) as (Hanyc & _ & Hplatform).
  destruct (Hplatform (generator_supply 1 5) o (world_of []) [OpWrite 10]
              Hg Hw Hh) as [Hclose Habort].
  destruct (Hanyc (World nat) st Hc) as (_ & Hev & _).
  split; [exact (Hclose Hc)|].
  split; [exact (Habort Ha (JSValue 1) (JSValue 2))|exact Hev].
Defined.

(** C9 as stated fails with the default options: the second [close()]
    forwards the close to the handle released by the first and rejects
    with its TypeError, and so does the second [abort].  With
    [preventClose] set the second [close()] still raises when the
    cursor's completion signal does. *)
Lemma repeated_termination_raises :
  let st := started [1] in
  (sink_close st).1 = Normal ()
  ∧ (sink_close (sink_close st).2).1 = Throw ReleasedWriter
  ∧ (sink_abort (JSValue 1) st).1 = Normal ()
  ∧ (sink_abort (JSValue 1) (sink_abort (JSValue 1) st).2).1 = Throw ReleasedWriter
  ∧ truthy (options (this moody) ≫= preventClose) = true
  ∧ (sink_close moody).1 = Normal ()
  ∧ (sink_close (sink_close moody).2).1 = Throw (JSValue 5).
Proof. intros st. subst st. split_all; by_evaluation. Qed.

End Concrete.

(** * Further properties: the sink's first and last calls *)
Import Usage.

Section Lifecycle.
Context {W T : Type}.
Implicit Types (st : state W T) (it : Iterator W T) (g : Supply W T)
  (value : WritableStream W T) (chunk : T) (reason e : jsval).

(** X1. [start()] on a supply whose cursor reports the end at once
    throws the exhaustion error after one pull with reason [undefined];
    no handle is taken, and every later [write] throws the TypeError of
    the missing writer without calling anything. *)
Theorem start_on_empty_supply g (o : option ConcatSinkOptions) (wd w1 w2 : W) it :
  supply_cursor g wd = (Normal it, w1) →
  iter_next it JSUndefined w1 = (Normal IterDone, w2) →
  ∃ st', start (fresh g o wd) = (Throw SupplyExhausted, st')
    ∧ trace st' = [EvIterator; EvIterNext JSUndefined]
    ∧ world st' = w2
    ∧ iter (this st') = Some it
    ∧ writer (this st') = None
    ∧ ∀ chunk, sink_write chunk st' = (Throw WriterUndefined, st').
Proof.
  unfold supply_cursor, fresh, Sink.constructor. intros Hc Hn.
  unfold start. run_sink. by eexists.
Qed.

(** X2. [start()] on a supply whose cursor yields a stream: the cursor
    is obtained once and pulled once with reason [undefined], a handle
    is taken on the stream it yields and installed, and nothing is
    released. *)
Theorem start_takes_first_handle g (o : option ConcatSinkOptions) (wd w1 w2 w3 : W)
    it value (w' : WritableStreamDefaultWriter W T) :
  supply_cursor g wd = (Normal it, w1) →
  iter_next it JSUndefined w1 = (Normal (IterValue value), w2) →
  getWriter value w2 = (Normal w', w3) →
  ∃ st', start (fresh g o wd) = (Normal (), st')
    ∧ trace st' = [EvIterator; EvIterNext JSUndefined; EvGetWriter (stream_id value)]
    ∧ world st' = w3
    ∧ iter (this st') = Some it
    ∧ writer (this st') = Some w'
    ∧ options (this st') = o.
Proof.
  unfold supply_cursor, fresh, Sink.constructor. intros Hc Hn Hg.
  unfold start. run_sink. by eexists.
Qed.

(** X3. A sink that has neither cursor nor handle (never started, or
    whose [start()] could not obtain the cursor): [close()] and
    [abort(reason)] return without calling anything, and [write] throws
    the TypeError of the missing writer. *)
Theorem unstarted_sink_is_inert g (o : option ConcatSinkOptions) (wd w1 : W) e chunk reason :
  supply_cursor g wd = (Throw e, w1) →
  sink_close (fresh g o wd) = (Normal (), fresh g o wd)
  ∧ sink_abort reason (fresh g o wd) = (Normal (), fresh g o wd)
  ∧ sink_write chunk (fresh g o wd) = (Throw WriterUndefined, fresh g o wd)
  ∧ ∃ st', start (fresh g o wd) = (Throw e, st')
      ∧ trace st' = [EvIterator]
      ∧ sink_close st' = (Normal (), st')
      ∧ sink_abort reason st' = (Normal (), st')
      ∧ sink_write chunk st' = (Throw WriterUndefined, st').
Proof.
  unfold supply_cursor, fresh, Sink.constructor. intros Hc.
  split_all; try (run_sink; try destruct (negb _); done).
  unfold start. run_sink. eexists. split; [reflexivity|].
  split_all; try done; run_sink; try destruct (negb _); done.
Qed.

(** X4. A write the current consumer accepts is [ready] then [write] on
    the handle held and nothing else: the cursor is not pulled and the
    sink's fields are unchanged. *)
Theorem accepted_write_stays st (w : WritableStreamDefaultWriter W T) chunk (w1 w2 : W) :
  writer (this st) = Some w →
  ready w (world st) = (Normal (), w1) →
  write w chunk w1 = (Normal (), w2) →
  ∃ st', sink_write chunk st = (Normal (), st')
    ∧ new_events st st' = [EvReady (writer_id w); EvWrite (writer_id w) chunk]
    ∧ advances (new_events st st') = 0
    ∧ this st' = this st
    ∧ world st' = w2.
Proof.
  intros Hw Hr Hwr. open_state st. run_sink. trace_done.
Qed.

(** X5. When the stream the cursor yields cannot be locked (its
    [getWriter()] throws), the write throws that error; the handle held
    before has been released all the same and is the one still
    installed. *)
Theorem write_fails_on_locked_target st it (w : WritableStreamDefaultWriter W T)
    chunk e e' value (w1 w2 w3 w4 : W) :
  iter (this st) = Some it →
  writer (this st) = Some w →
  ready w (world st) = (Normal (), w1) →
  write w chunk w1 = (Throw e, w2) →
  iter_next it e w2 = (Normal (IterValue value), w3) →
  getWriter value (releaseLock w w3) = (Throw e', w4) →
  ∃ st', sink_write chunk st = (Throw e', st')
    ∧ new_events st st' =
        [EvReady (writer_id w); EvWrite (writer_id w) chunk; EvIterNext e;
         EvReleaseLock (writer_id w); EvGetWriter (stream_id value)]
    ∧ writer (this st') = Some w
    ∧ world st' = w4.
Proof.
  intros Hi Hw Hr Hwr Hn Hg. open_state st. run_sink. trace_done.
Qed.

(** X12. [close()] surfaces the first failure and stops there.  When
    the cursor's completion signal throws, that error is thrown and the
    active consumer is neither closed nor released, whatever the
    options and whatever its close would do.  When the signal returns
    (or the cursor has none) and the consumer's close throws, that
    error is thrown and the handle is not released. *)
Theorem close_stops_at_failure st :
  (∀ it (f : jsval → W → completion unit * W) e (w1 : W),
     iter (this st) = Some it →
     iter_return it = Some f →
     f JSUndefined (world st) = (Throw e, w1) →
     sink_close st
     = (Throw e,
        {| this := this st; world := w1; trace := trace st ++ [EvIterReturn] |}))
  ∧ (∀ (w : WritableStreamDefaultWriter W T)
       (fo : option (jsval → W → completion unit * W)) e (w1 w2 : W),
       writer (this st) = Some w →
       iter (this st) ≫= iter_return = fo →
       match fo with
       | Some f => f JSUndefined (world st) = (Normal (), w1)
       | None => w1 = world st
       end →
       truthy (options (this st) ≫= preventClose) = false →
       close w w1 = (Throw e, w2) →
       sink_close st
       = (Throw e,
          {| this := this st; world := w2;
             trace := trace st
                      ++ match fo with Some _ => [EvIterReturn] | None => [] end
                      ++ [EvClose (writer_id w)] |})).
Proof.
  split.
  - intros it f e w1 Hi Hr Hf. open_state st. by run_sink.
  - intros w fo e w1 w2 Hw Hfo Hf Hp Hc. destruct st as [[g o i wr] wd tr].
    simpl in *. subst wr.
    destruct i as [it|]; simpl in Hfo;
      [destruct (iter_return it) as [f|] eqn:Hr|]; subst fo; try subst w1;
      run_sink; by rewrite <- ?app_assoc.
Qed.


End Lifecycle.

(** * Further properties: the helper streams of the test file *)

Section HelperStreams.
Context {T : Type}.
Implicit Types (s inner : stream T) (chunk : T) (chunks buf : list T)
  (o : option ConcatSinkOptions) (l : bool) (reason : jsval).

Lemma received_set_locked l s : received (set_locked l s) = received s.
Proof. by destruct s. Qed.

Lemma locked_set_locked l s : locked (set_locked l s) = l.
Proof. by destruct s. Qed.

Lemma received_stream_close s : received (stream_close s).2 = received s.
Proof.
  induction s as [st l buf|st l size read o wr inner IH]; simpl.
  - by destruct st.
  - destruct st; simpl; try done.
    destruct (negb _); simpl.
    + unfold via_writer, inner_release. destruct wr; simpl; [done|].
      destruct (stream_close inner) as [[[]|e] inner']; simpl in *;
        by rewrite ?received_set_locked.
    + unfold inner_release. destruct wr; by rewrite ?received_set_locked.
Qed.

Lemma received_stream_abort reason s : received (stream_abort reason s).2 = received s.
Proof.
  induction s as [st l buf|st l size read o wr inner IH]; simpl.
  - by destruct st.
  - destruct st; simpl; try done.
    destruct (negb _); simpl.
    + unfold via_writer, inner_release. destruct wr; simpl; [done|].
      destruct (stream_abort reason inner) as [[[]|e] inner']; simpl in *;
        by rewrite ?received_set_locked.
    + unfold inner_release. destruct wr; by rewrite ?received_set_locked.
Qed.

(** Writes to an errored stream reject with the stored error and change
    nothing. *)
Lemma write_each_errored e s chunks :
  stream_st s = Errored e →
  write_each chunks s = (replicate (length chunks) (Throw e), s).
Proof.
  intros Hs. induction chunks as [|c cs IH]; simpl; [done|].
  assert (stream_write c s = (Throw e, s)) as ->.
  { destruct s; simpl in *; by rewrite Hs. }
  by rewrite IH.
Qed.

Lemma write_each_limited l size o chunks : ∀ read buf,
  read ≤ size →
  write_each chunks
    (LimitedWritableStream Writable l size read o false
       (InMemoryWritableStream Writable true buf))
  = (replicate (length chunks `min` (size - read)) (Normal ())
     ++ replicate (length chunks - (size - read)) (Throw (ExceededChunkLimit size)),
     if length chunks <=? size - read then
       LimitedWritableStream Writable l size (read + length chunks) o false
         (InMemoryWritableStream Writable true (buf ++ chunks))
     else
       LimitedWritableStream (Errored (ExceededChunkLimit size)) l size size o true
         (InMemoryWritableStream
            (if truthy (o ≫= preventClose) then Writable else Closed) false
            (buf ++ take (size - read) chunks))).
Proof.
  induction chunks as [|c cs IH]; intros read buf Hle.
  - simpl. by rewrite Nat.add_0_r, app_nil_r.
  - cbn [write_each]. destruct (decide (read < size)) as [Hlt|Hge].
    + assert (stream_write c
                (LimitedWritableStream Writable l size read o false
                   (InMemoryWritableStream Writable true buf))
              = (Normal (),
                 LimitedWritableStream Writable l size (read + 1) o false
                   (InMemoryWritableStream Writable true (buf ++ [c])))) as ->.
      { simpl. by destruct (Nat.ltb_spec size (read + 1)); [lia|]. }
      rewrite IH by lia. simpl length.
      replace (size - read) with (S (size - (read + 1))) by lia.
      rewrite <- Nat.succ_min_distr. simpl.
      replace (read + 1 + length cs) with (read + S (length cs)) by lia.
      rewrite <- !app_assoc. simpl.
      by destruct (length cs <=? size - (read + 1)).
    + assert (read = size) as -> by lia.
      assert (stream_write c
                (LimitedWritableStream Writable l size size o false
                   (InMemoryWritableStream Writable true buf))
              = (Throw (ExceededChunkLimit size),
                 LimitedWritableStream (Errored (ExceededChunkLimit size)) l size size o true
                   (InMemoryWritableStream
                      (if truthy (o ≫= preventClose) then Writable else Closed)
                      false buf))) as ->.
      { simpl. destruct (Nat.ltb_spec size (size + 1)); [|lia].
        by destruct (truthy _). }
      rewrite (write_each_errored (ExceededChunkLimit size)) by done.
      rewrite Nat.sub_diag, Nat.min_0_r, Nat.sub_0_r. simpl.
      by rewrite app_nil_r.
Qed.

(** X6. A [LimitedWritableStream] of size [n] built on an in-memory
    stream accepts the first [n] chunks written to it and passes them on
    in order; every later write rejects with the range error of the
    limit and stores nothing.  Once over the limit the stream is
    errored, and the in-memory stream is released, and closed unless
    [preventClose] is set. *)
Theorem limited_capacity (size : nat) o buf chunks :
  ∃ s0, new_LimitedWritableStream size (InMemoryWritableStream Writable false buf) o
        = Normal s0
    ∧ (write_each chunks s0).1
      = replicate (length chunks `min` size) (Normal ())
        ++ replicate (length chunks - size) (Throw (ExceededChunkLimit size))
    ∧ received (write_each chunks s0).2 = buf ++ take size chunks
    ∧ (length chunks ≤ size → stream_st (write_each chunks s0).2 = Writable)
    ∧ (size < length chunks →
       stream_st (write_each chunks s0).2 = Errored (ExceededChunkLimit size)
       ∧ ∀ inner, writable_of (write_each chunks s0).2 = Some inner →
           locked inner = false
           ∧ stream_st inner
             = if truthy (o ≫= preventClose) then Writable else Closed).
Proof.
  eexists. split; [reflexivity|]. simpl set_locked.
  rewrite write_each_limited by lia. rewrite Nat.sub_0_r. simpl fst. simpl snd.
  split; [done|].
  destruct (Nat.leb_spec (length chunks) size) as [Hle|Hgt].
  - split_all; try done; try lia. simpl. by rewrite take_ge.
  - split_all; try done; try lia. intros _. split; [done|].
    by intros inner [= <-].
Qed.

(** X7. A write beyond the limit of a [LimitedWritableStream] rejects
    with the range error of the limit whatever stream it was built on:
    the stream is errored with that error, the stream it was built on is
    released, nothing more reaches it, and every later write rejects
    with the same error. *)
Theorem limited_overflow l (size read : nat) o inner chunk :
  size ≤ read →
  let res := stream_write chunk (LimitedWritableStream Writable l size read o false inner) in
  res.1 = Throw (ExceededChunkLimit size)
  ∧ stream_st res.2 = Errored (ExceededChunkLimit size)
  ∧ locked res.2 = l
  ∧ received res.2 = received inner
  ∧ (∀ inner', writable_of res.2 = Some inner' → locked inner' = false)
  ∧ (∀ chunk', stream_write chunk' res.2 = (Throw (ExceededChunkLimit size), res.2)).
Proof.
  intros Hle res. subst res. simpl.
  destruct (Nat.ltb_spec size (read + 1)); [|lia]. simpl.
  split_all; try done.
  - unfold inner_release. rewrite received_set_locked.
    destruct (negb _); [|done]. apply received_stream_close.
  - intros inner' [= <-]. apply locked_set_locked.
Qed.

(** X8. Closing a [LimitedWritableStream] returns exactly when
    [preventClose] is set or the close of the stream it was built on
    returns; it then is closed and has released that stream.  When that
    close throws, the same error is thrown, the stream is errored with
    it, and the stream it was built on is not released.  No data is
    touched either way. *)
Theorem limited_close l (size read : nat) o inner :
  let res := stream_close (LimitedWritableStream Writable l size read o false inner) in
  (res.1 = Normal ()
   ↔ truthy (o ≫= preventClose) = true ∨ (stream_close inner).1 = Normal ())
  ∧ (res.1 = Normal () →
     stream_st res.2 = Closed
     ∧ ∀ inner', writable_of res.2 = Some inner' → locked inner' = false)
  ∧ (∀ e, res.1 = Throw e →
     (stream_close inner).1 = Throw e
     ∧ stream_st res.2 = Errored e
     ∧ ∀ inner', writable_of res.2 = Some inner' → locked inner' = locked inner)
  ∧ received res.2 = received inner.
Proof.
  intros res. subst res. simpl.
  pose proof (locked_stream_close inner) as Hl.
  pose proof (received_stream_close inner) as Hr.
  destruct (truthy (o ≫= preventClose)); simpl.
  - split_all; try done.
    + split; [by left|done].
    + intros _. split; [done|]. intros inner' [= <-]. apply locked_set_locked.
    + apply received_set_locked.
  - destruct (stream_close inner) as [[[]|e] inner1]; simpl in *.
    + split_all; try done.
      * split; [by right|done].
      * intros _. split; [done|]. intros inner' [= <-]. apply locked_set_locked.
      * by rewrite received_set_locked.
    + split_all; try done.
      * split; [done|]. by intros [|].
      * intros e' [= <-]. split_all; try done. by intros inner' [= <-].
Qed.

(** X9. Aborting a [LimitedWritableStream] errors it with the reason
    and, unless [preventAbort] is set, aborts the stream it was built on
    with the same reason; it returns exactly when [preventAbort] is set
    or that abort returns, and has then released that stream.  No data
    is touched. *)
Theorem limited_abort l (size read : nat) o inner reason :
  let res := stream_abort reason (LimitedWritableStream Writable l size read o false inner) in
  (res.1 = Normal ()
   ↔ truthy (o ≫= preventAbort) = true ∨ (stream_abort reason inner).1 = Normal ())
  ∧ stream_st res.2 = Errored reason
  ∧ (∀ inner', writable_of res.2 = Some inner' →
       received inner' = received inner
       ∧ (res.1 = Normal () → locked inner' = false)
       ∧ (truthy (o ≫= preventAbort) = false →
          inner' = (if is_normal res.1 then set_locked false else id)
                     (stream_abort reason inner).2))
  ∧ received res.2 = received inner.
Proof.
  intros res. subst res. simpl.
  pose proof (received_stream_abort reason inner) as Hr.
  destruct (truthy (o ≫= preventAbort)); simpl.
  - split_all; try done.
    + split; [by left|done].
    + intros inner' [= <-]. split_all; try done.
      * apply received_set_locked.
      * intros _. apply locked_set_locked.
    + apply received_set_locked.
  - destruct (stream_abort reason inner) as [[[]|e] inner1]; simpl in *.
    + split_all; try done.
      * split; [by right|done].
      * intros inner' [= <-]. split_all; try done.
        -- by rewrite received_set_locked.
        -- intros _. apply locked_set_locked.
      * by rewrite received_set_locked.
    + split_all; try done.
      * split; [done|]. by intros [|].
      * intros inner' [= <-]. by split_all.
Qed.

End HelperStreams.

(** * Further properties: pipes into consumers of any capacities *)

Section Routing.
Context {T : Type}.
Implicit Types (chunk : T) (buf chunks : list T) (done : list (nat * list T))
  (rest caps : list nat) (k : supply_kind) (cur : stream T) (tr : list (event T)).

Lemma submit_full_at k n size done cap buf rest tr chunk (j : nat) :
  j = length done →
  length buf = cap →
  submit (writer_object j) chunk
    (state_at k n size done (current cap buf) true rest tr)
  = (Throw (ExceededChunkLimit cap),
     state_at k n size done (full true cap buf) true rest
       (tr ++ [EvReady j; EvWrite j chunk])).
Proof. intros ->. apply submit_full. Qed.

(** A chunk beyond the capacity of the current consumer, when the next
    consumer has capacity zero: the retry is rejected too. *)
Lemma write_refused k n size done cap buf rest tr chunk :
  length buf = cap →
  consistent k n size done cap (0 :: rest) →
  ∃ tr', sink_write chunk (state_at k n size done (current cap buf) true (0 :: rest) tr)
  = (Throw (ExceededChunkLimit 0),
     state_at k n size (done ++ [(cap, buf)]) (full true 0 []) true rest tr').
Proof.
  intros Heq Hk. rewrite sink_write_at. unfold try_catch.
  rewrite submit_full by done.
  unfold bind. rewrite advance_at by done.
  rewrite (submit_full_at k n size (done ++ [(cap, buf)]) 0 []) by (simpl; position).
  by eexists.
Qed.

Lemma received_world_at k done cur (held : bool) rest :
  received <$> heap (world_at k done cur held rest)
  = done.*2 ++ received cur ::
      match k with FromArray => replicate (length rest) [] | FromGenerator => [] end.
Proof.
  simpl. rewrite fmap_app, received_left_behind. simpl.
  destruct k; [|done]. by rewrite received_consumer.
Qed.

Lemma writes_outcome_within (room m : nat) rest :
  m ≤ room → writes_outcome room rest m = Normal ().
Proof.
  intros Hle. unfold writes_outcome.
  by destruct (Nat.leb_spec m (room + reach_rest rest)); [|lia].
Qed.

Lemma writes_outcome_step (room c m : nat) rest :
  writes_outcome room (S c :: rest) (room + S m) = writes_outcome c rest m.
Proof.
  unfold writes_outcome. simpl.
  destruct (Nat.leb_spec (room + S m) (room + S (c + reach_rest rest)));
    destruct (Nat.leb_spec m (c + reach_rest rest)); try lia; done.
Qed.

Lemma write_all_routes_fit n size done cap buf rest chunks tr :
  length buf ≤ cap →
  length chunks ≤ cap - length buf →
  ∃ done' cur' rest' tr',
    write_all chunks (state_at FromArray n size done (current cap buf) true rest tr)
    = (writes_outcome (cap - length buf) rest (length chunks),
       state_at FromArray n size done' cur' true rest' tr')
    ∧ received <$> heap (world_at FromArray done' cur' true rest')
      = done.*2 ++ distribute (cap :: rest) (take (cap + reach_rest rest) (buf ++ chunks))
    ∧ (writes_outcome (cap - length buf) rest (length chunks) = Normal () →
       ∃ cap' buf', cur' = current cap' buf').
Proof.
  intros Hbuf Hfit.
  destruct (write_all_within FromArray n size done cap rest chunks buf tr)
    as (tr' & Hrun & _); [lia|].
  rewrite Hrun, writes_outcome_within by (by idtac).
  exists done, (current cap (buf ++ chunks)), rest, tr'.
  split; [reflexivity|]. split; [|by eauto].
  rewrite received_world_at. cbn [distribute received current].
  rewrite (take_ge (buf ++ chunks)) by (rewrite length_app; lia).
  rewrite take_ge, drop_ge by (rewrite length_app; lia).
  by rewrite distribute_nil.
Qed.

Lemma writes_outcome_over (room m : nat) rest :
  room < m → reach_rest rest = 0 →
  writes_outcome room rest m
  = if blocked rest then Throw (ExceededChunkLimit 0) else Throw SupplyExhausted.
Proof.
  intros Hlt Hr. unfold writes_outcome. rewrite Hr.
  by destruct (Nat.leb_spec m (room + 0)); [lia|].
Qed.

(** Writing any chunks from any point of the run of an array pipe: how
    the writes end and what the consumers hold then. *)
Lemma write_all_routes n size : ∀ rest done cap buf chunks tr,
  consistent FromArray n size done cap rest →
  length buf ≤ cap →
  ∃ done' cur' rest' tr',
    write_all chunks (state_at FromArray n size done (current cap buf) true rest tr)
    = (writes_outcome (cap - length buf) rest (length chunks),
       state_at FromArray n size done' cur' true rest' tr')
    ∧ received <$> heap (world_at FromArray done' cur' true rest')
      = done.*2 ++ distribute (cap :: rest) (take (cap + reach_rest rest) (buf ++ chunks))
    ∧ (writes_outcome (cap - length buf) rest (length chunks) = Normal () →
       ∃ cap' buf', cur' = current cap' buf').
Proof.
  induction rest as [|c rest IH]; intros dn cap buf chunks tr Hk Hbuf.
  - destruct (decide (length chunks ≤ cap - length buf)) as [Hfit|Hover];
      [by apply write_all_routes_fit|].
    destruct (split_overflow chunks (cap - length buf))
      as (xs1 & x & xs2 & -> & Hxs1); [lia|].
    rewrite write_all_app. unfold bind.
    destruct (write_all_within FromArray n size dn cap [] xs1 buf tr)
      as (tr1 & -> & _); [lia|].
    simpl write_all. unfold mbind, M_bind, bind.
    rewrite write_exhausts by (first [rewrite length_app; lia | by idtac]).
    rewrite writes_outcome_over by (first [rewrite length_app; simpl; lia | by idtac]).
    eexists dn, _, [], _. split; [reflexivity|]. split; [|by idtac].
    rewrite received_world_at. cbn [distribute received full reach_rest].
    rewrite Nat.add_0_r, (app_assoc buf xs1).
    rewrite take_app_length' by (rewrite length_app; lia).
    by rewrite take_ge by (rewrite length_app; lia).
  - destruct (decide (length chunks ≤ cap - length buf)) as [Hfit|Hover];
      [by apply write_all_routes_fit|].
    destruct (split_overflow chunks (cap - length buf))
      as (xs1 & x & xs2 & -> & Hxs1); [lia|].
    rewrite write_all_app. unfold bind.
    destruct (write_all_within FromArray n size dn cap (c :: rest) xs1 buf tr)
      as (tr1 & -> & _); [lia|].
    simpl write_all. unfold mbind, M_bind, bind.
    destruct c as [|c].
    + destruct (write_refused FromArray n size dn cap (buf ++ xs1) rest tr1 x)
        as (tr2 & ->); [rewrite length_app; lia|by idtac|].
      rewrite writes_outcome_over by (first [rewrite length_app; simpl; lia | by idtac]).
      eexists (dn ++ [(cap, buf ++ xs1)]), _, rest, tr2.
      split; [reflexivity|]. split; [|by idtac].
      rewrite received_world_at. cbn [distribute received full reach_rest Nat.eqb].
      rewrite Nat.add_0_r, (app_assoc buf xs1).
      rewrite take_app_length' by (rewrite length_app; lia).
      rewrite take_ge, drop_ge by (rewrite length_app; lia).
      rewrite take_nil, drop_nil, distribute_nil.
      by rewrite fmap_app, <- app_assoc.
    + destruct (write_advances FromArray n size dn cap (buf ++ xs1) (S c) rest tr1 x)
        as (tr2 & -> & _); [rewrite length_app; lia|lia|by idtac|].
      destruct (IH (dn ++ [(cap, buf ++ xs1)]) (S c) [x] xs2 tr2)
        as (done' & cur' & rest' & tr' & Hrun & Hrecv & Hcur);
        [by apply consistent_step|simpl; lia|].
      assert (Hout : writes_outcome (cap - length buf) (S c :: rest)
                       (length (xs1 ++ x :: xs2))
                     = writes_outcome (S c - length [x]) rest (length xs2)).
      { rewrite length_app, Hxs1. simpl length.
        rewrite writes_outcome_step. f_equal. lia. }
      rewrite Hout. exists done', cur', rest', tr'.
      split; [exact Hrun|]. split; [|exact Hcur].
      rewrite Hrecv. rewrite fmap_app, <- app_assoc.
      cbn [distribute reach_rest Nat.eqb fmap list_fmap snd app].
      rewrite (app_assoc buf xs1).
      rewrite (take_app_add' (buf ++ xs1) (x :: xs2) cap) by (rewrite length_app; lia).
      by rewrite take_app_length', drop_app_length' by (rewrite length_app; lia).
Qed.

Lemma reach_rest_le rest : reach_rest rest ≤ sum_list rest.
Proof.
  induction rest as [|c rest IH]; simpl; [done|].
  destruct c; simpl; lia.
Qed.

Lemma received_world_closed done cap buf rest :
  received <$> heap (world_closed FromArray done cap buf rest)
  = received <$> heap (world_at FromArray done (current cap buf) true rest).
Proof. by rewrite heap_world_closed, received_world_at, fmap_app, received_left_behind,
         fmap_cons, received_consumer. Qed.

(** X10. A pipe into an array of consumers of any capacities, zero
    included, and of any input: how it ends, and what the consumers
    hold then.  The consumers hold a prefix of the input, cut into runs
    in order, nothing twice and nothing skipped; the pipe returns
    exactly when the supply is not empty and the whole input was
    delivered, and then no consumer is locked. *)
Theorem pipe_routes caps chunks :
  let r := pipe_array caps chunks in
  r.1 = pipe_outcome caps (length chunks)
  ∧ received <$> heap (world r.2) = distribute caps (take (reach caps) chunks)
  ∧ concat (received <$> heap (world r.2)) = take (reach caps) chunks
  ∧ (r.1 = Normal () ↔ caps ≠ [] ∧ concat (received <$> heap (world r.2)) = chunks)
  ∧ (r.1 = Normal () → Forall (λ s, locked s = false) (heap (world r.2))).
Proof.
  intros r.
  assert (Hmain : r.1 = pipe_outcome caps (length chunks)
            ∧ received <$> heap (world r.2) = distribute caps (take (reach caps) chunks)
            ∧ (r.1 = Normal () → Forall (λ s, locked s = false) (heap (world r.2)))).
  { subst r. destruct caps as [|c rest]; [by idtac|].
    destruct (start_at (T:=T) FromArray (S (length rest)) 0 c rest) as (tr0 & Hstart & _).
    { split; [simpl; lia|by idtac]. }
    destruct (write_all_routes (S (length rest)) 0 rest [] c [] chunks tr0)
      as (done' & cur' & rest' & tr' & Hrun & Hrecv & Hcur);
      [split; [simpl; lia|by idtac]|simpl; lia|].
    simpl length in Hrun, Hcur. rewrite Nat.sub_0_r in Hrun, Hcur.
    cbn [reach pipe_outcome]. simpl in Hrecv.
    rewrite pipe_array_cons. unfold pipeTo, mbind, M_bind, bind.
    rewrite Hstart, Hrun.
    destruct (writes_outcome c rest (length chunks)) as [[]|e] eqn:Hout.
    - destruct (Hcur eq_refl) as (cap' & buf' & ->).
      destruct (close_at FromArray (S (length rest)) 0 done' cap' buf' rest' tr')
        as (tr2 & ->).
      cbn [fst snd world]. split; [by idtac|]. split.
      + by rewrite received_world_closed.
      + intros _. rewrite heap_world_closed.
        apply Forall_app; split; [apply locked_left_behind|].
        apply Forall_cons; split; [by idtac|apply locked_consumer].
    - cbn [fst snd world state_at]. by split_all. }
  destruct Hmain as (Hout & Hrecv & Hlock).
  assert (Hcat : concat (received <$> heap (world r.2)) = take (reach caps) chunks).
  { rewrite Hrecv, concat_distribute, take_take. f_equal.
    destruct caps as [|c rest]; [by idtac|]. simpl.
    pose proof (reach_rest_le rest). lia. }
  split_all; try done.
  rewrite Hout, Hcat. destruct caps as [|c rest]; simpl.
  { split; [by idtac|]. by intros [? _]. }
  unfold writes_outcome.
  destruct (Nat.leb_spec (length chunks) (c + reach_rest rest)) as [Hle|Hgt].
  - split; [|by idtac]. intros _. split; [by idtac|]. by apply take_ge.
  - split; [by destruct (blocked rest)|]. intros [_ Heq].
    apply (f_equal length) in Heq. rewrite length_take in Heq. lia.
Qed.

Lemma writes_outcome_reach (room m : nat) rest :
  m ≤ room + reach_rest rest → writes_outcome room rest m = Normal ().
Proof.
  intros Hle. unfold writes_outcome.
  by destruct (Nat.leb_spec m (room + reach_rest rest)); [|lia].
Qed.

(** Aborting the sink aborts the current consumer and releases it. *)
Lemma abort_at n size done cap buf rest tr reason :
  ∃ tr', sink_abort reason (state_at FromArray n size done (current cap buf) true rest tr)
  = (Normal (),
     state_at FromArray n size done (aborted cap buf reason) false rest tr').
Proof.
  unfold state_at. unfold_sink. simpl.
  rewrite on_stream_at. simpl.
  rewrite release_at. simpl. by eexists.
Qed.

(** X11. A pipe into an array of consumers that is aborted once its
    chunks are written (the chunks fitting into the consumers): the
    abort returns, the consumers keep what they received, the consumer
    that was being written to and the in-memory stream under it are
    errored with the reason, and no handle is attached and no consumer
    locked afterwards. *)
Theorem pipe_abort_releases caps chunks reason :
  caps ≠ [] →
  length chunks ≤ reach caps →
  let r := pipe_array_aborted caps chunks reason in
  r.1 = Normal ()
  ∧ received <$> heap (world r.2) = distribute caps chunks
  ∧ Forall (λ s, locked s = false) (heap (world r.2))
  ∧ live_handles (world r.2) = 0
  ∧ ∃ i strm inner,
      heap (world r.2) !! i = Some strm
      ∧ stream_st strm = Errored reason
      ∧ writable_of strm = Some inner
      ∧ stream_st inner = Errored reason
      ∧ locked inner = false.
Proof.
  intros Hne Hlen r. subst r. destruct caps as [|c rest]; [by idtac|].
  destruct (start_at (T:=T) FromArray (S (length rest)) 0 c rest) as (tr0 & Hstart & _).
  { split; [simpl; lia|by idtac]. }
  destruct (write_all_routes (S (length rest)) 0 rest [] c [] chunks tr0)
    as (done' & cur' & rest' & tr' & Hrun & Hrecv & Hcur);
    [split; [simpl; lia|by idtac]|simpl; lia|].
  simpl length in Hrun, Hcur. rewrite Nat.sub_0_r in Hrun, Hcur.
  simpl in Hlen.
  rewrite writes_outcome_reach in Hrun, Hcur by (by idtac).
  destruct (Hcur eq_refl) as (cap' & buf' & ->).
  assert (Hrecv' : received <$> heap (world_at FromArray done' (current cap' buf') true rest')
                   = distribute (c :: rest) (take (c + reach_rest rest) chunks))
    by exact Hrecv.
  destruct (abort_at (S (length rest)) 0 done' cap' buf' rest' tr' reason) as (tr2 & Hab).
  unfold pipe_array_aborted, bind. simpl length.
  change (array_supply (seq 0 (S (length rest))))
    with (supply_of (T:=T) FromArray (S (length rest)) 0).
  rewrite Hstart, Hrun, Hab. cbn [fst snd world state_at].
  split_all.
  - by idtac.
  - rewrite received_world_at in Hrecv'. rewrite received_world_at.
    rewrite (take_ge chunks) in Hrecv' by lia. exact Hrecv'.
  - simpl heap. apply Forall_app; split; [apply locked_left_behind|].
    apply Forall_cons; split; [by idtac|apply locked_consumer].
  - unfold live_handles. simpl writers.
    by rewrite filter_app, filter_is_Some_replicate.
  - exists (length done'), (aborted cap' buf' reason),
      (InMemoryWritableStream (Errored reason) false buf').
    split_all; try by idtac. apply heap_at.
Qed.

Lemma take_distribute (j : nat) caps chunks :
  take j (distribute caps chunks) = distribute (take j caps) chunks.
Proof.
  revert j chunks. induction caps as [|c caps IH]; intros j chunks.
  - by destruct j.
  - destruct j as [|j]; simpl; [by idtac|]. by rewrite IH.
Qed.

(** X14. A pipe whose supply is the generator of the test file, the
    chunks fitting into the consumers it can build: the pipe returns;
    the generator has built only the consumers the chunks needed, each
    holds its run of the input in order, none is locked, and the
    generator is completed. *)
Theorem pipe_generator_distributes (n size : nat) chunks :
  1 ≤ n → 1 ≤ size → length chunks ≤ n * size →
  let r := pipe_generator n size chunks in
  r.1 = Normal ()
  ∧ length (heap (world r.2)) ≤ n
  ∧ received <$> heap (world r.2)
    = distribute (replicate (length (heap (world r.2))) size) chunks
  ∧ concat (received <$> heap (world r.2)) = chunks
  ∧ Forall (λ s, locked s = false) (heap (world r.2))
  ∧ generator (world r.2) = Completed.
Proof.
  intros Hn Hsize Hlen r. subst r.
  destruct (pipe_completes (T:=T) FromGenerator n size size (replicate (n - 1) size) chunks)
    as (done1 & cap & buf & rest' & tr1 & tr2 & _ & _ & Hpipe & Hdist & Hcaps & _).
  { split; [rewrite length_replicate; simpl; lia|]. by rewrite length_replicate. }
  { intros _. by apply Forall_replicate. }
  { rewrite sum_list_replicate. nia. }
  unfold pipe_generator.
  change (generator_supply n size) with (supply_of (T:=T) FromGenerator n size).
  cbv zeta in Hpipe. rewrite Hpipe. cbn [fst snd world].
  rewrite heap_world_closed.
  assert (Hlens : length (done1.*1 ++ cap :: rest') = n).
  { rewrite Hcaps. simpl. rewrite length_replicate. lia. }
  rewrite length_app, length_fmap in Hlens. simpl in Hlens.
  assert (Hrecv : done1.*2 ++ [buf]
                  = distribute (replicate (length done1 + 1) size) chunks).
  { replace (replicate (length done1 + 1) size)
      with (take (length done1 + 1) (size :: replicate (n - 1) size)).
    2:{ rewrite <- replicate_S, take_replicate. f_equal. lia. }
    rewrite <- take_distribute, <- Hdist.
    rewrite take_app_add' by (by rewrite length_fmap). by rewrite app_nil_r || done. }
  rewrite length_app, length_fmap. simpl length.
  rewrite fmap_app, received_left_behind. simpl.
  split_all.
  - by idtac.
  - lia.
  - exact Hrecv.
  - assert (Hcc : concat (distribute (size :: replicate (n - 1) size) chunks) = chunks).
    { rewrite concat_distribute. apply take_ge. simpl.
      rewrite sum_list_replicate. nia. }
    rewrite <- Hdist, concat_app in Hcc. simpl in Hcc.
    rewrite concat_replicate_nil, app_nil_r in Hcc.
    rewrite concat_app. simpl. by rewrite app_nil_r.
  - apply Forall_app; split; [apply locked_left_behind|]. by repeat constructor.
  - by idtac.
Qed.

End Routing.

(** * The further properties at concrete sinks *)

Section MoreConcrete.
Import Examples Scenes.

Ltac by_evaluation := vm_compute; reflexivity.

(** X1 at an empty array of consumers. *)
Lemma start_on_empty_supply_witness :
  ∃ st', start (fresh (array_supply (T:=nat) []) None (world_of [])) = (Throw SupplyExhausted, st')
    ∧ trace st' = [EvIterator; EvIterNext JSUndefined]
    ∧ writer (this st') = None
    ∧ sink_write 7 st' = (Throw WriterUndefined, st').
Proof.
  pose (g := array_supply (T:=nat) []). pose (wd := world_of (T:=nat) []).
  pose (it := array_iterator (T:=nat) []).
  pose (w1 := (supply_cursor g wd).2).
  pose (w2 := (iter_next it JSUndefined w1).2).
  assert (H1 : supply_cursor g wd = (Normal it, w1)) by by_evaluation.
  assert (H2 : iter_next it JSUndefined w1 = (Normal IterDone, w2)) by by_evaluation.
  destruct (start_on_empty_supply g None wd w1 w2 it H1 H2)
    as (st' & Hs & Ht & _ & _ & Hw & Hwr).
  exists st'. split; [exact Hs|]. split; [exact Ht|]. split; [exact Hw|exact (Hwr 7)].
Defined.

(** X2 at an array of one consumer. *)
Lemma start_takes_first_handle_witness :
  ∃ st', start (fresh (array_supply (T:=nat) [0]) None (world_of [1])) = (Normal (), st')
    ∧ trace st' = [EvIterator; EvIterNext JSUndefined; EvGetWriter 0]
    ∧ writer (this st') = Some (writer_object 0).
Proof.
  pose (g := array_supply (T:=nat) [0]). pose (wd := world_of (T:=nat) [1]).
  pose (it := array_iterator (T:=nat) [0]).
  pose (w1 := (supply_cursor g wd).2).
  pose (w2 := (iter_next it JSUndefined w1).2).
  pose (w3 := (getWriter (stream_object (T:=nat) 0) w2).2).
  assert (H1 : supply_cursor g wd = (Normal it, w1)) by by_evaluation.
  assert (H2 : iter_next it JSUndefined w1 = (Normal (IterValue (stream_object 0)), w2))
    by by_evaluation.
  assert (H3 : getWriter (stream_object (T:=nat) 0) w2 = (Normal (writer_object 0), w3))
    by by_evaluation.
  destruct (start_takes_first_handle g None wd w1 w2 w3 it (stream_object 0)
              (writer_object 0) H1 H2 H3) as (st' & Hs & Ht & _ & _ & Hw & _).
  exists st'. split; [exact Hs|]. split; [exact Ht|exact Hw].
Defined.

(** X3 at a supply whose call throws. *)
Lemma unstarted_sink_is_inert_witness :
  sink_close (fresh throwing_supply None (world_of [])) 
  = (Normal (), fresh throwing_supply None (world_of []))
  ∧ ∃ st', start (fresh throwing_supply None (world_of [])) = (Throw (JSValue 3), st')
      ∧ sink_abort (JSValue 4) st' = (Normal (), st')
      ∧ sink_write 7 st' = (Throw WriterUndefined, st').
Proof.
  pose (wd := world_of (T:=nat) []).
  assert (H1 : supply_cursor throwing_supply wd = (Throw (JSValue 3), wd)) by by_evaluation.
  destruct (unstarted_sink_is_inert throwing_supply None wd wd (JSValue 3) 7 (JSValue 4) H1)
    as (Hc & _ & _ & st' & Hs & _ & _ & Ha & Hw).
  split; [exact Hc|]. exists st'. split; [exact Hs|]. split; [exact Ha|exact Hw].
Defined.

(** X4 at two consumers of capacity one: the first write. *)
Lemma accepted_write_stays_witness :
  ∃ st', sink_write 10 (started [1; 1]) = (Normal (), st')
    ∧ new_events (started [1; 1]) st' = [EvReady 0; EvWrite 0 10]
    ∧ this st' = this (started [1; 1]).
Proof.
  pose (w := writer_object (T:=nat) 0).
  pose (w1 := (ready w (world (started [1; 1]))).2).
  pose (w2 := (write w 10 w1).2).
  assert (H1 : writer (this (started [1; 1])) = Some w) by by_evaluation.
  assert (H2 : ready w (world (started [1; 1])) = (Normal (), w1)) by by_evaluation.
  assert (H3 : write w 10 w1 = (Normal (), w2)) by by_evaluation.
  destruct (accepted_write_stays (started [1; 1]) w 10 w1 w2 H1 H2 H3)
    as (st' & Hs & Ht & _ & Hthis & _).
  exists st'. split; [exact Hs|]. split; [exact Ht|exact Hthis].
Defined.

(** X5 at two consumers of capacity one, the second of which is locked
    by somebody else: the write that overflows the first. *)
Lemma write_fails_on_locked_target_witness :
  ∃ st', sink_write 11 second_taken = (Throw LockedStream, st')
    ∧ writer (this st') = Some (writer_object 0)
    ∧ attached 0 (world st') = None.
Proof.
  pose (it := array_iterator (T:=nat) [0; 1]).
  pose (w := writer_object (T:=nat) 0).
  pose (e := ExceededChunkLimit 1).
  pose (w1 := (ready w (world second_taken)).2).
  pose (w2 := (write w 11 w1).2).
  pose (w3 := (iter_next it e w2).2).
  pose (w4 := (getWriter (stream_object (T:=nat) 1) (releaseLock w w3)).2).
  assert (H1 : iter (this second_taken) = Some it) by by_evaluation.
  assert (H2 : writer (this second_taken) = Some w) by by_evaluation.
  assert (H3 : ready w (world second_taken) = (Normal (), w1)) by by_evaluation.
  assert (H4 : write w 11 w1 = (Throw e, w2)) by by_evaluation.
  assert (H5 : iter_next it e w2 = (Normal (IterValue (stream_object 1)), w3))
    by by_evaluation.
  assert (H6 : getWriter (stream_object (T:=nat) 1) (releaseLock w w3)
               = (Throw LockedStream, w4)) by by_evaluation.
  destruct (write_fails_on_locked_target second_taken it w 11 e LockedStream
              (stream_object 1) w1 w2 w3 w4 H1 H2 H3 H4 H5 H6)
    as (st' & Hs & _ & Hw & Hwd).
  exists st'. split; [exact Hs|]. split; [exact Hw|].
  rewrite Hwd. by_evaluation.
Defined.

(** X7 at a consumer of capacity zero. *)
Lemma limited_overflow_witness :
  0 ≤ 0
  ∧ let res := stream_write 5 (consumer 0) in
    res.1 = Throw (ExceededChunkLimit 0)
    ∧ stream_st res.2 = Errored (ExceededChunkLimit 0)
    ∧ received res.2 = [].
Proof.
  split; [lia|].
  pose proof (limited_overflow false 0 0 None
                (InMemoryWritableStream Writable true []) 5 (le_n 0)) as H.
  destruct H as (Hr & Hst & _ & Hrecv & _).
  intros res. split; [exact Hr|]. split; [exact Hst|exact Hrecv].
Defined.

(** X11 at two consumers of capacity two and three chunks. *)
Lemma pipe_abort_releases_witness :
  [2; 2] ≠ []
  ∧ length [1; 2; 3] ≤ reach [2; 2]
  ∧ let r := pipe_array_aborted [2; 2] [1; 2; 3] (JSValue 9) in
    r.1 = Normal ()
    ∧ received <$> heap (world r.2) = distribute [2; 2] [1; 2; 3]
    ∧ live_handles (world r.2) = 0.
Proof.
  assert (H1 : [2; 2] ≠ []) by discriminate.
  assert (H2 : length [1; 2; 3] ≤ reach [2; 2]) by (vm_compute; lia).
  split; [exact H1|]. split; [exact H2|].
  pose proof (pipe_abort_releases [2; 2] [1; 2; 3] (JSValue 9) H1 H2) as H.
  destruct H as (Hr & Hd & _ & Hl & _).
  intros r. split; [exact Hr|]. split; [exact Hd|exact Hl].
Defined.

(** X12 at a cursor whose [return] throws, and at an array's consumers
    of capacity zero, the one held being errored so that its close
    throws. *)
Lemma close_stops_at_failure_witness :
  (sink_close stubborn
   = (Throw (JSValue 5),
      {| this := this stubborn; world := world stubborn;
         trace := trace stubborn ++ [EvIterReturn] |})
   ∧ attached 0 (world stubborn) = Some 0)
  ∧ ∃ st', sink_close second_errored = (Throw NotWritable, st')
      ∧ new_events second_errored st' = [EvClose 1]
      ∧ attached 1 (world st') = Some 1.
Proof.
  split.
  - pose (f := λ (_ : jsval) (w : World nat), (Throw (A:=unit) (JSValue 5), w)).
    assert (H1 : iter (this stubborn) = Some stubborn_cursor) by by_evaluation.
    assert (H2 : iter_return stubborn_cursor = Some f) by reflexivity.
    assert (H3 : f JSUndefined (world stubborn) = (Throw (JSValue 5), world stubborn))
      by reflexivity.
    destruct (close_stops_at_failure stubborn) as [Hsignal _].
    split; [exact (Hsignal stubborn_cursor f (JSValue 5) (world stubborn) H1 H2 H3)|].
    by_evaluation.
  - pose (w := writer_object (T:=nat) 1).
    pose (w2 := (close w (world second_errored)).2).
    assert (H1 : writer (this second_errored) = Some w) by by_evaluation.
    assert (H2 : iter (this second_errored) ≫= iter_return = None) by by_evaluation.
    assert (H3 : truthy (options (this second_errored) ≫= preventClose) = false)
      by by_evaluation.
    assert (H4 : close w (world second_errored) = (Throw NotWritable, w2))
      by by_evaluation.
    destruct (close_stops_at_failure second_errored) as [_ Hclose].
    pose proof (Hclose w None NotWritable (world second_errored) w2 H1 H2 eq_refl H3 H4)
      as Hc.
    eexists. split; [exact Hc|]. split; by_evaluation.
Defined.


(** X14 at the third test of the test file: consumers of capacity five
    from the generator and ten chunks. *)
Lemma pipe_generator_distributes_witness :
  1 ≤ 3 ∧ 1 ≤ 5 ∧ length (seq 0 10) ≤ 3 * 5
  ∧ let r := pipe_generator 3 5 (seq 0 10) in
    r.1 = Normal ()
    ∧ concat (received <$> heap (world r.2)) = seq 0 10
    ∧ generator (world r.2) = Completed.
Proof.
  assert (H1 : 1 ≤ 3) by lia.
  assert (H2 : 1 ≤ 5) by lia.
  assert (H3 : length (seq 0 10) ≤ 3 * 5) by (vm_compute; lia).
  split; [exact H1|]. split; [exact H2|]. split; [exact H3|].
  pose proof (pipe_generator_distributes 3 5 (seq 0 10) H1 H2 H3) as H.
  destruct H as (Hr & _ & _ & Hc & _ & Hg).
  intros r. split; [exact Hr|]. split; [exact Hc|exact Hg].
Defined.

End MoreConcrete.
